(** * Koffan: ordering engine and suggestion engine of the [db] package

    Shallow embedding of the Go functions of [db] (file part_000) that keep
    [sort_order] consistent and that rank item-name suggestions.

    Modelling conventions.
    - A table is the list of its rows in storage order; an [UPDATE ... WHERE]
      is a [map] over the rows, an [INSERT] appends a row.
    - [ORDER BY sort_order ASC] is stdpp's [merge_sort] on the ordering key:
      one of the orders SQLite may return; results that depend on the order
      among equal keys are never claimed.
    - Go [int] and [int64] values (ids, [sort_order], positions, counters) are
      [Z]: the counters stay far below 2^63 and never wrap.
    - A transaction either commits all its writes or, on error, none: the
      model returns [Err] without a new store, or [Ok] with the store at
      commit time. *)

From Stdlib Require Import ZArith Lia Ascii String.
From stdpp Require Import base list sorting.

Open Scope Z_scope.

(** [sql.ErrNoRows], and the [fmt.Errorf("history item not found")] of
    [DeleteItemHistory]. *)
Inductive db_error := ErrNoRows | ErrHistoryNotFound.

Inductive result (A : Type) : Type :=
| Ok (a : A)
| Err (e : db_error).
Arguments Ok {A} a.
Arguments Err {A} e.

(** ** Items *)

(** [type Item struct]; description, uncertain flag and timestamps play no
    part in ordering and are left out. *)
Record Item := mkItem {
  item_ID : Z;
  item_SectionID : Z;
  item_Completed : bool;
  item_SortOrder : Z
}.

Definition set_sort_order (v : Z) (r : Item) : Item :=
  mkItem (item_ID r) (item_SectionID r) (item_Completed r) v.

(** [SELECT ... FROM items WHERE id = ?] *)
Definition find_item (st : list Item) (id : Z) : option Item :=
  List.find (fun r => item_ID r =? id) st.

(** [UPDATE items SET sort_order = v WHERE id = id] *)
Definition update_sort_order_by_id (st : list Item) (id v : Z) : list Item :=
  map (fun r => if item_ID r =? id then set_sort_order v r else r) st.

(** [type itemOrder struct { id int64; sortOrder int }] *)
Record itemOrder := mkItemOrder { io_id : Z; io_sortOrder : Z }.

Definition io_le (a b : itemOrder) : Prop := io_sortOrder a <= io_sortOrder b.

#[global] Instance io_le_dec : RelDecision io_le.
Proof. intros a b. unfold io_le. apply _. Defined.

#[global] Instance io_le_total : Total io_le.
Proof. intros a b. unfold io_le. lia. Qed.

Definition to_itemOrder (r : Item) : itemOrder :=
  mkItemOrder (item_ID r) (item_SortOrder r).

(** Incomplete items of a section: [section_id = ? AND completed = FALSE]. *)
Definition is_active_in (sec : Z) (r : Item) : bool :=
  (item_SectionID r =? sec) && negb (item_Completed r).

Definition active_rows (sec : Z) (st : list Item) : list Item :=
  List.filter (is_active_in sec) st.

(** [SELECT id, sort_order FROM items WHERE section_id = ? AND
    completed = FALSE ORDER BY sort_order ASC] *)
Definition query_active_items (st : list Item) (sec : Z) : list itemOrder :=
  merge_sort io_le (map to_itemOrder (active_rows sec st)).

(** The same query with [AND id != ?]. *)
Definition query_other_active_items (st : list Item) (sec id : Z) : list itemOrder :=
  merge_sort io_le
    (map to_itemOrder
       (List.filter (fun r => is_active_in sec r && negb (item_ID r =? id)) st)).

(** [COALESCE(MAX(sort_order), -1)] over a column. *)
Definition sql_max (l : list Z) : option Z :=
  match l with
  | [] => None
  | x :: l' => Some (fold_left Z.max l' x)
  end.

Definition coalesce_max (l : list Z) : Z :=
  match sql_max l with Some m => m | None => -1 end.

Definition section_orders (st : list Item) (sec : Z) : list Z :=
  map item_SortOrder (List.filter (fun r => item_SectionID r =? sec) st).

(** *** [reorderItemInSection] *)

(** The renumbering loop
    [for i, item := range otherItems { if i == targetPosition {...} ... }],
    returning the store and [newOrder]. *)
Fixpoint renumber_loop (st : list Item) (id tp : Z) (others : list itemOrder)
    (i newOrder : Z) : list Item * Z :=
  match others with
  | [] => (st, newOrder)
  | item :: rest =>
      let '(st1, n1) :=
        if i =? tp then (update_sort_order_by_id st id newOrder, newOrder + 1)
        else (st, newOrder) in
      renumber_loop (update_sort_order_by_id st1 (io_id item) n1) id tp rest
        (i + 1) (n1 + 1)
  end.

Definition reorderItemInSection (st : list Item) (id targetPosition : Z)
    : result (list Item * Item) :=
  match find_item st id with
  | None => Err ErrNoRows
  | Some cur =>
      let otherItems := query_other_active_items st (item_SectionID cur) id in
      let len := Z.of_nat (length otherItems) in
      let tp := if targetPosition <? 0 then 0 else targetPosition in
      let tp := if tp >? len then len else tp in
      let '(st1, newOrder) := renumber_loop st id tp otherItems 0 0 in
      let st2 := if tp >=? len then update_sort_order_by_id st1 id newOrder
                 else st1 in
      match find_item st2 id with
      | Some it => Ok (st2, it)
      | None => Err ErrNoRows
      end
  end.

(** *** [MoveItemToSectionAtPosition] *)

(** The choice of [targetSortOrder] from the sort orders of the incomplete
    destination items (in query order) and of all destination items. *)
Definition target_sort_order (active : list Z) (all_orders : list Z)
    (targetPosition : Z) : Z :=
  match active with
  | [] => coalesce_max all_orders + 1
  | first :: _ =>
      if targetPosition <=? 0 then first
      else if targetPosition >=? Z.of_nat (length active) then
        List.last active first + 1
      else nth (Z.to_nat targetPosition) active first
  end.

(** [UPDATE items SET sort_order = sort_order + 1
     WHERE section_id = ? AND sort_order >= ?] *)
Definition shift_from (st : list Item) (sec target : Z) : list Item :=
  map (fun r => if (item_SectionID r =? sec) && (target <=? item_SortOrder r)
                then set_sort_order (item_SortOrder r + 1) r else r) st.

(** [UPDATE items SET section_id = ?, sort_order = ? WHERE id = ?] *)
Definition move_row (st : list Item) (id sec v : Z) : list Item :=
  map (fun r => if item_ID r =? id
                then mkItem (item_ID r) sec (item_Completed r) v else r) st.

Definition MoveItemToSectionAtPosition (st : list Item)
    (id newSectionID targetPosition : Z) : result (list Item * Item) :=
  match find_item st id with
  | None => Err ErrNoRows
  | Some cur =>
      if item_SectionID cur =? newSectionID then
        reorderItemInSection st id targetPosition
      else
        let activeItems := query_active_items st newSectionID in
        let targetSortOrder :=
          target_sort_order (map io_sortOrder activeItems)
            (section_orders st newSectionID) targetPosition in
        let st1 := shift_from st newSectionID targetSortOrder in
        let st2 := move_row st1 id newSectionID targetSortOrder in
        match find_item st2 id with
        | Some it => Ok (st2, it)
        | None => Err ErrNoRows
        end
  end.

(** Sequential assignment [L[k] := n + k] of sort orders by id: the net
    effect of the renumbering loop of [reorderItemInSection]. *)
Fixpoint assign_orders (L : list Z) (n : Z) (st : list Item) : list Item :=
  match L with
  | [] => st
  | x :: L' => assign_orders L' (n + 1) (update_sort_order_by_id st x n)
  end.

Fixpoint index_of (x : Z) (L : list Z) : option nat :=
  match L with
  | [] => None
  | y :: L' => if y =? x then Some 0%nat else option_map S (index_of x L')
  end.

(** *** [MoveItemUp] / [MoveItemDown] *)

(** [SELECT id, sort_order FROM items WHERE section_id = ? AND sort_order < ?
     ORDER BY sort_order DESC LIMIT 1]; [None] is [sql.ErrNoRows]. *)
Definition query_prev_item (st : list Item) (sec so : Z) : option itemOrder :=
  head (merge_sort (flip io_le)
          (map to_itemOrder
             (List.filter (fun r => (item_SectionID r =? sec) && (item_SortOrder r <? so)) st))).

(** The same with [sort_order > ?] and [ORDER BY sort_order ASC]. *)
Definition query_next_item (st : list Item) (sec so : Z) : option itemOrder :=
  head (merge_sort io_le
          (map to_itemOrder
             (List.filter (fun r => (item_SectionID r =? sec) && (so <? item_SortOrder r)) st))).

Definition MoveItemUp (st : list Item) (id : Z) : result (list Item) :=
  match find_item st id with
  | None => Err ErrNoRows
  | Some cur =>
      match query_prev_item st (item_SectionID cur) (item_SortOrder cur) with
      | None => Ok st (* Already at top *)
      | Some prev =>
          let st1 := update_sort_order_by_id st (io_id prev) (item_SortOrder cur) in
          Ok (update_sort_order_by_id st1 id (io_sortOrder prev))
      end
  end.

Definition MoveItemDown (st : list Item) (id : Z) : result (list Item) :=
  match find_item st id with
  | None => Err ErrNoRows
  | Some cur =>
      match query_next_item st (item_SectionID cur) (item_SortOrder cur) with
      | None => Ok st (* Already at bottom *)
      | Some next =>
          let st1 := update_sort_order_by_id st (io_id next) (item_SortOrder cur) in
          Ok (update_sort_order_by_id st1 id (io_sortOrder next))
      end
  end.

(** [DELETE FROM items WHERE id = ?]; the result of [Exec] is not inspected. *)
Definition DeleteItem (st : list Item) (id : Z) : result (list Item) :=
  Ok (List.filter (fun r => negb (item_ID r =? id)) st).

(** ** Lists *)

(** [type List struct]; icon, creation time and stats are left out. *)
Record DbList := mkList {
  list_ID : Z;
  list_Name : string;
  list_SortOrder : Z;
  list_IsActive : bool;
  list_UpdatedAt : Z
}.

Definition find_list (ls : list DbList) (id : Z) : option DbList :=
  List.find (fun l => list_ID l =? id) ls.

Definition set_list_sort_order (v : Z) (l : DbList) : DbList :=
  mkList (list_ID l) (list_Name l) v (list_IsActive l) (list_UpdatedAt l).

(** [CreateList]: [COALESCE(MAX(sort_order), -1)], then an [INSERT] with
    [is_active = FALSE]; the new row id is SQLite's next rowid. *)
Definition CreateList (ls : list DbList) (name : string) : result (list DbList * DbList) :=
  let maxOrder := coalesce_max (map list_SortOrder ls) in
  let newID := Z.max 0 (coalesce_max (map list_ID ls)) + 1 in
  let row := mkList newID name (maxOrder + 1) false 0 in
  Ok (ls ++ [row], row).

(** [SetActiveList]: [UPDATE lists SET is_active = FALSE], then
    [UPDATE lists SET is_active = TRUE, updated_at = now WHERE id = ?];
    neither [Exec] result is inspected. *)
Definition SetActiveList (ls : list DbList) (id now : Z) : result (list DbList) :=
  let ls1 := map (fun l => mkList (list_ID l) (list_Name l) (list_SortOrder l)
                                   false (list_UpdatedAt l)) ls in
  let ls2 := map (fun l => if list_ID l =? id
                           then mkList (list_ID l) (list_Name l) (list_SortOrder l) true now
                           else l) ls1 in
  Ok ls2.

Definition MoveListUp (ls : list DbList) (id : Z) : result (list DbList) :=
  match find_list ls id with
  | None => Err ErrNoRows
  | Some cur =>
      let currentOrder := list_SortOrder cur in
      if currentOrder =? 0 then Ok ls
      else
        let ls1 := map (fun l => if list_SortOrder l =? currentOrder - 1
                                 then set_list_sort_order (list_SortOrder l + 1) l
                                 else l) ls in
        Ok (map (fun l => if list_ID l =? id
                          then set_list_sort_order (currentOrder - 1) l else l) ls1)
  end.

Definition MoveListDown (ls : list DbList) (id : Z) : result (list DbList) :=
  match find_list ls id with
  | None => Err ErrNoRows
  | Some cur =>
      let currentOrder := list_SortOrder cur in
      match sql_max (map list_SortOrder ls) with
      | None => Err ErrNoRows (* unreachable: the list itself exists *)
      | Some maxOrder =>
          if maxOrder <=? currentOrder then Ok ls
          else
            let ls1 := map (fun l => if list_SortOrder l =? currentOrder + 1
                                     then set_list_sort_order (list_SortOrder l - 1) l
                                     else l) ls in
            Ok (map (fun l => if list_ID l =? id
                              then set_list_sort_order (currentOrder + 1) l else l) ls1)
      end
  end.

(** ** Sections *)

Record Section := mkSection {
  section_ID : Z;
  section_ListID : Z;
  section_SortOrder : Z
}.

Definition set_section_sort_order (v : Z) (s : Section) : Section :=
  mkSection (section_ID s) (section_ListID s) v.

Definition MoveSectionUp (ss : list Section) (id : Z) : result (list Section) :=
  match List.find (fun s => section_ID s =? id) ss with
  | None => Err ErrNoRows
  | Some cur =>
      let currentOrder := section_SortOrder cur in
      let listID := section_ListID cur in
      if currentOrder =? 0 then Ok ss
      else
        let ss1 := map (fun s => if (section_SortOrder s =? currentOrder - 1) &&
                                    (section_ListID s =? listID)
                                 then set_section_sort_order (section_SortOrder s + 1) s
                                 else s) ss in
        Ok (map (fun s => if section_ID s =? id
                          then set_section_sort_order (currentOrder - 1) s else s) ss1)
  end.

(** ** Suggestion engine *)

(** Strings are Stdlib [string]s, one [ascii] per byte as Go strings are;
    [len] and [s[i]] count and index bytes. [strings.ToLower] maps 'A'..'Z'
    to 'a'..'z'; the model keeps every other byte, which is Go's result on
    text without non-ASCII capital letters. *)
Definition to_lower_ascii (c : ascii) : ascii :=
  let n := nat_of_ascii c in
  if (65 <=? n)%nat && (n <=? 90)%nat then ascii_of_nat (n + 32) else c.

Fixpoint ToLower (s : string) : string :=
  match s with
  | EmptyString => EmptyString
  | String c s' => String (to_lower_ascii c) (ToLower s')
  end.

(** [strings.HasPrefix s prefix] *)
Definition HasPrefix (s pre : string) : bool := String.prefix pre s.

(** [strings.Contains s sub] *)
Fixpoint Contains (s sub : string) : bool :=
  String.prefix sub s ||
  match s with
  | EmptyString => false
  | String _ s' => Contains s' sub
  end.

(** The ASCII white space of [unicode.IsSpace]: '\t', '\n', '\v', '\f', '\r', ' '. *)
Definition is_space (c : ascii) : bool :=
  let n := nat_of_ascii c in ((9 <=? n)%nat && (n <=? 13)%nat) || (n =? 32)%nat.

(** [strings.Fields]: the maximal runs of non-space characters; [word] is the
    current run, reversed. *)
Fixpoint fields_aux (s : list ascii) (word : list ascii) : list string :=
  match s with
  | [] => match word with
          | [] => []
          | _ => [string_of_list_ascii (rev word)]
          end
  | c :: s' =>
      if is_space c then
        match word with
        | [] => fields_aux s' []
        | _ => string_of_list_ascii (rev word) :: fields_aux s' []
        end
      else fields_aux s' (c :: word)
  end.

Definition Fields (s : string) : list string := fields_aux (list_ascii_of_string s) [].

(** *** [levenshteinDistance] *)

Definition lev_cost (c1 c2 : ascii) : nat := if ascii_dec c1 c2 then 0%nat else 1%nat.

(** Row [i] of the matrix from row [i-1]: [diag] is [matrix[i-1][j-1]],
    [up :: _] is [matrix[i-1][j] ...], [left] is [matrix[i][j-1]]. *)
Fixpoint lev_row (c1 : ascii) (s2 : list ascii) (diag : nat) (up : list nat)
    (left : nat) : list nat :=
  match s2, up with
  | c2 :: s2', u :: up' =>
      let v := Nat.min (Nat.min (u + 1) (left + 1)) (diag + lev_cost c1 c2) in
      v :: lev_row c1 s2' u up' v
  | _, _ => []
  end.

(** The outer loop over [s1]; [i] is the index of the last row built. *)
Fixpoint lev_rows (s1 s2 : list ascii) (i : nat) (prev : list nat) : list nat :=
  match s1 with
  | [] => prev
  | c1 :: s1' =>
      let row := S i :: lev_row c1 s2 (hd 0%nat prev) (tl prev) (S i) in
      lev_rows s1' s2 (S i) row
  end.

Definition levenshteinDistance (s1 s2 : string) : nat :=
  let a := list_ascii_of_string (ToLower s1) in
  let b := list_ascii_of_string (ToLower s2) in
  if (length a =? 0)%nat then length b
  else if (length b =? 0)%nat then length a
  else List.last (lev_rows a b 0 (seq 0 (length b + 1))) 0%nat.

(** The classic edit distance over the bytes of a string: one insertion,
    deletion or substitution anywhere in the string, each of cost 1. *)
Inductive edit_step : list ascii -> list ascii -> Prop :=
| es_ins a1 a2 c : edit_step (a1 ++ a2) (a1 ++ c :: a2)
| es_del a1 a2 c : edit_step (a1 ++ c :: a2) (a1 ++ a2)
| es_sub a1 a2 c d : edit_step (a1 ++ c :: a2) (a1 ++ d :: a2).

(** [edits n a b]: [a] becomes [b] in [n] single-byte edits. *)
Inductive edits : nat -> list ascii -> list ascii -> Prop :=
| edits_refl a : edits 0 a a
| edits_step n a b c : edit_step a b -> edits n b c -> edits (S n) a c.

(** Alignments of two strings with their cost, and the recursive
    edit distance on them; both serve the proof about [levenshteinDistance]. *)
Inductive align : list ascii -> list ascii -> nat -> Prop :=
| al_nil : align [] [] 0
| al_del x a b n : align a b n -> align (x :: a) b (S n)
| al_ins y a b n : align a b n -> align a (y :: b) (S n)
| al_sub x y a b n : align a b n -> align (x :: a) (y :: b) (n + lev_cost x y).

Fixpoint lev_spec (a b : list ascii) : nat :=
  match a with
  | [] => length b
  | x :: a' =>
      (fix inner (b : list ascii) : nat :=
         match b with
         | [] => length a
         | y :: b' => Nat.min (Nat.min (lev_spec a' b + 1) (inner b' + 1))
                              (lev_spec a' b' + lev_cost x y)
         end) b
  end.

(** The non-empty prefixes of a string, shortest first: the columns
    [1 .. len(s2)] of a matrix row. *)
Fixpoint ninits (b : list ascii) : list (list ascii) :=
  match b with
  | [] => []
  | y :: b' => [y] :: map (cons y) (ninits b')
  end.

(** *** [scoreSuggestion] *)

(** The loop over [strings.Fields(nameLower)]: the first word within
    [maxDistance] decides. *)
Fixpoint fuzzy_words (words : list string) (queryLower : string) (maxDistance : nat) : Z :=
  match words with
  | [] => 0
  | word :: rest =>
      let wordDist := levenshteinDistance word queryLower in
      if (wordDist <=? maxDistance)%nat then 80 - Z.of_nat wordDist * 15
      else fuzzy_words rest queryLower maxDistance
  end.

Definition scoreSuggestion (name query : string) : Z :=
  let nameLower := ToLower name in
  let queryLower := ToLower query in
  if String.eqb nameLower queryLower then 1000
  else if HasPrefix nameLower queryLower then 500
  else if Contains nameLower queryLower then 200
  else if (3 <=? String.length query)%nat then
    let distance := levenshteinDistance nameLower queryLower in
    let maxDistance := (String.length query / 2)%nat in
    if (distance <=? maxDistance)%nat then 100 - Z.of_nat distance * 20
    else fuzzy_words (Fields nameLower) queryLower maxDistance
  else 0.

(** *** [GetItemSuggestions] *)

(** [type ItemSuggestion struct] *)
Record ItemSuggestion := mkSuggestion {
  s_Name : string;
  s_LastSectionID : Z;
  s_LastSectionName : string;
  s_UsageCount : Z
}.

(** The order of [sort.Slice]: [a] may precede [b] when [b] is not "less"
    than [a], i.e. higher score first, then higher usage count. *)
Definition score_rank (a b : ItemSuggestion * Z) : Prop :=
  b.2 < a.2 \/ (a.2 = b.2 /\ s_UsageCount b.1 <= s_UsageCount a.1).

#[global] Instance score_rank_dec : RelDecision score_rank.
Proof. intros a b. unfold score_rank. apply _. Defined.

#[global] Instance score_rank_total : Total score_rank.
Proof. intros a b. unfold score_rank. lia. Qed.

#[global] Instance score_rank_trans : Transitive score_rank.
Proof. intros a b c. unfold score_rank. lia. Qed.

(** The scoring loop over the fetched rows. *)
Fixpoint score_rows (rows : list ItemSuggestion) (query : string) : list (ItemSuggestion * Z) :=
  match rows with
  | [] => []
  | s :: rest =>
      let score := scoreSuggestion (s_Name s) query in
      if 0 <? score then (s, score + Z.quot (s_UsageCount s) 10) :: score_rows rest query
      else score_rows rest query
  end.

(** [history] is [item_history] joined with [sections], in the order
    [ORDER BY h.usage_count DESC, h.last_used_at DESC]; the query keeps its
    first 200 rows. *)
Definition GetItemSuggestions (history : list ItemSuggestion) (query : string)
    (limit : Z) : list ItemSuggestion :=
  let limit := if limit <=? 0 then 10 else limit in
  let rows := take 200 history in
  let scored := merge_sort score_rank (score_rows rows query) in
  map fst (take (Z.to_nat limit) scored).

Definition GetAllItemSuggestions (history : list ItemSuggestion) (limit : Z)
    : list ItemSuggestion :=
  let limit := if limit <=? 0 then 100 else limit in
  take (Z.to_nat limit) history.

(** The handler [GetSuggestions] (package [handlers]) with its parsed limit. *)
Definition GetSuggestions (history : list ItemSuggestion) (query : string) (limit : Z)
    : list ItemSuggestion :=
  if String.eqb query "" then GetAllItemSuggestions history limit
  else GetItemSuggestions history query limit.

(** The scoring rule as amended: the per-word step takes the first word,
    in the order of [strings.Fields], within [floor(len(query)/2)]. *)
Definition score_amended (name query : string) : Z :=
  let n := ToLower name in
  let q := ToLower query in
  let maxd := (String.length query / 2)%nat in
  if String.eqb n q then 1000
  else if HasPrefix n q then 500
  else if Contains n q then 200
  else if (String.length query <? 3)%nat then 0
  else
    let d := levenshteinDistance n q in
    if (d <=? maxd)%nat then 100 - 20 * Z.of_nat d
    else match List.find (fun w => (levenshteinDistance w q <=? maxd)%nat) (Fields n) with
         | Some w => 80 - 15 * Z.of_nat (levenshteinDistance w q)
         | None => 0
         end.

(** The ranked pool as amended: candidates with a positive base score, with
    the popularity boost [usage_count / 10]. *)
Definition ranked_pool (rows : list ItemSuggestion) (query : string) : list (ItemSuggestion * Z) :=
  map (fun s => (s, score_amended (s_Name s) query + Z.quot (s_UsageCount s) 10))
    (List.filter (fun s => 0 <? score_amended (s_Name s) query) rows).

(** The scoring rule in the words of the claim: the per-word step takes the
    best (smallest) word distance. *)
Definition score_claimed (name query : string) : Z :=
  let n := ToLower name in
  let q := ToLower query in
  let maxd := (String.length query / 2)%nat in
  if String.eqb n q then 1000
  else if HasPrefix n q then 500
  else if Contains n q then 200
  else if (String.length query <? 3)%nat then 0
  else
    let d := levenshteinDistance n q in
    if (d <=? maxd)%nat then 100 - 20 * Z.of_nat d
    else match map (fun w => levenshteinDistance w q) (Fields n) with
         | [] => 0
         | w0 :: ws => let best := fold_left Nat.min ws w0 in
                       if (best <=? maxd)%nat then 80 - 15 * Z.of_nat best else 0
         end.

(** *** Item history *)

Record HistoryRow := mkHistory {
  h_ID : Z;
  h_Name : string;
  h_LastSectionID : Z;
  h_UsageCount : Z;
  h_LastUsedAt : Z
}.

(** Modelled from the spec: the unique index of [item_history] on
    [name COLLATE NOCASE] (the schema is not among the sources). NOCASE folds
    the ASCII letters only, as [ToLower] does here. An upsert conflicts with
    the row whose name equals the new name up to case. *)
Definition same_name (a b : string) : bool := String.eqb (ToLower a) (ToLower b).

Definition next_history_id (hs : list HistoryRow) : Z :=
  Z.max 0 (coalesce_max (map h_ID hs)) + 1.

(** [SaveItemHistory]: [INSERT ... VALUES (?, ?, 1, now) ON CONFLICT(name
    COLLATE NOCASE) DO UPDATE SET last_section_id = excluded.last_section_id,
    usage_count = usage_count + 1, last_used_at = now]. *)
Definition SaveItemHistory (hs : list HistoryRow) (name : string) (sectionID now : Z)
    : list HistoryRow :=
  if existsb (fun h => same_name (h_Name h) name) hs then
    map (fun h => if same_name (h_Name h) name
                  then mkHistory (h_ID h) (h_Name h) sectionID (h_UsageCount h + 1) now
                  else h) hs
  else hs ++ [mkHistory (next_history_id hs) name sectionID 1 now].

(** [SaveItemHistoryTx]: [INSERT ... (name, last_section_id, usage_count)
    VALUES (?, ?, 1) ON CONFLICT(name) DO UPDATE SET usage_count =
    usage_count + 1, last_section_id = excluded.last_section_id]; a new row
    gets the column default [dflt] for [last_used_at]. *)
Definition SaveItemHistoryTx (hs : list HistoryRow) (name : string) (sectionID dflt : Z)
    : list HistoryRow :=
  if existsb (fun h => same_name (h_Name h) name) hs then
    map (fun h => if same_name (h_Name h) name
                  then mkHistory (h_ID h) (h_Name h) sectionID (h_UsageCount h + 1)
                                 (h_LastUsedAt h)
                  else h) hs
  else hs ++ [mkHistory (next_history_id hs) name sectionID 1 dflt].

(** [DeleteItemHistory]: [RowsAffected() == 0] is reported as not found. *)
Definition DeleteItemHistory (hs : list HistoryRow) (id : Z) : result (list HistoryRow) :=
  let hs' := List.filter (fun h => negb (h_ID h =? id)) hs in
  if (length hs' =? length hs)%nat then Err ErrHistoryNotFound else Ok hs'.

(** UTF-8 bytes of "é" (U+00E9). *)
Definition e_acute : string :=
  String (ascii_of_nat 195) (String (ascii_of_nat 169) EmptyString).

(** ** Further operations of the [db] package *)

(** *** Appending items *)


Definition next_item_id (st : list Item) : Z :=
  Z.max 0 (coalesce_max (map item_ID st)) + 1.

(** [CreateItem]: [INSERT INTO items (section_id, name, description,
    sort_order)] with [max + 1]; [completed0] is the column default of
    [items.completed] (the schema is not among the sources); the new id is
    SQLite's next rowid. *)
Definition CreateItem (st : list Item) (sectionID : Z) (completed0 : bool)
    : result (list Item * Item) :=
  let maxOrder := coalesce_max (section_orders st sectionID) in
  let row := mkItem (next_item_id st) sectionID completed0 (maxOrder + 1) in
  Ok (st ++ [row], row).

(** *** Statistics *)

(** [type Stats struct] (and [SectionStats], with the same fields). *)
Record Stats := mkStats {
  TotalItems : Z;
  CompletedItems : Z;
  Percentage : Z
}.

(** [if stats.TotalItems > 0 { stats.Percentage = (CompletedItems * 100) /
    TotalItems }]: Go's integer division truncates, as [Z.quot]. *)
Definition make_stats (total completed : Z) : Stats :=
  mkStats total completed (if 0 <? total then Z.quot (completed * 100) total else 0).

(** [getGlobalStats]: [COUNT] of all items and of the completed ones. *)
Definition getGlobalStats (st : list Item) : Stats :=
  make_stats (Z.of_nat (length st))
             (Z.of_nat (length (List.filter item_Completed st))).

(** [GetSectionStats]: the same counts with [WHERE section_id = ?]. *)
Definition GetSectionStats (st : list Item) (sectionID : Z) : Stats :=
  let rows := List.filter (fun r => item_SectionID r =? sectionID) st in
  make_stats (Z.of_nat (length rows))
             (Z.of_nat (length (List.filter item_Completed rows))).

(** [FROM items i JOIN sections s ON i.section_id = s.id WHERE s.list_id = ?]:
    one row per matching pair. *)
Definition list_join (ss : list Section) (st : list Item) (listID : Z)
    : list (Item * Section) :=
  flat_map (fun i => map (fun s => (i, s))
                       (List.filter (fun s => (item_SectionID i =? section_ID s) &&
                                              (section_ListID s =? listID)) ss)) st.

Definition GetListStats (ss : list Section) (st : list Item) (listID : Z) : Stats :=
  let j := list_join ss st listID in
  make_stats (Z.of_nat (length j))
             (Z.of_nat (length (List.filter (fun p => item_Completed p.1) j))).

(** [section_id IN (SELECT id FROM sections WHERE list_id = ?)] *)
Definition in_list (ss : list Section) (listID : Z) (r : Item) : bool :=
  existsb (fun s => (section_ListID s =? listID) && (section_ID s =? item_SectionID r)) ss.

Definition set_completed (b : bool) (r : Item) : Item :=
  mkItem (item_ID r) (item_SectionID r) b (item_SortOrder r).

(** [RestartList]: [UPDATE items SET completed = FALSE WHERE section_id IN
    (...)]; the following [UPDATE lists SET updated_at] only touches the
    list's timestamp. *)
Definition RestartList (ss : list Section) (st : list Item) (listID : Z)
    : result (list Item) :=
  Ok (map (fun r => if in_list ss listID r then set_completed false r else r) st).

(** *** Active list *)

(** [GetActiveList]: [WHERE is_active = TRUE LIMIT 1], first in storage
    order. *)
Definition GetActiveList (ls : list DbList) : option DbList :=
  List.find list_IsActive ls.

(** [GetStats]: the stats of the active list, or [getGlobalStats] when
    [GetActiveList] fails. *)
Definition GetStats (ls : list DbList) (ss : list Section) (st : list Item) : Stats :=
  match GetActiveList ls with
  | None => getGlobalStats st
  | Some activeList => GetListStats ss st (list_ID activeList)
  end.

(** [DeleteCompletedItems]: an error without an active list, else
    [DELETE FROM items WHERE completed = TRUE AND section_id IN (...)] and
    [RowsAffected()]. *)
Definition DeleteCompletedItems (ls : list DbList) (ss : list Section) (st : list Item)
    : result (Z * list Item) :=
  match GetActiveList ls with
  | None => Err ErrNoRows
  | Some activeList =>
      let st' := List.filter (fun r => negb (item_Completed r &&
                                             in_list ss (list_ID activeList) r)) st in
      Ok (Z.of_nat (length st - length st'), st')
  end.

(** *** Batch deletes *)

(** [DeleteItemHistoryBatch]: [(0, nil)] for no ids, else
    [DELETE FROM item_history WHERE id IN (?, ..., ?)] and [RowsAffected()]. *)
Definition DeleteItemHistoryBatch (hs : list HistoryRow) (ids : list Z)
    : result (Z * list HistoryRow) :=
  match ids with
  | [] => Ok (0, hs)
  | _ =>
      let hs' := List.filter (fun h => negb (existsb (Z.eqb (h_ID h)) ids)) hs in
      Ok (Z.of_nat (length hs - length hs'), hs')
  end.

(** [DeleteSections]: one [DELETE FROM sections WHERE id = ?] per id, in one
    transaction. *)
Definition DeleteSections (ss : list Section) (ids : list Z) : result (list Section) :=
  Ok (fold_left (fun acc id => List.filter (fun s => negb (section_ID s =? id)) acc) ids ss).

(** *** Handler helper [contains] (package [handlers]) *)

(** [for i := 0; i <= len(s)-len(substr); i++ { if s[i:i+len(substr)] ==
    substr { return true } }]: [fuel] is the number of iterations left. *)
Fixpoint contains_loop (s substr : string) (i fuel : nat) : bool :=
  match fuel with
  | O => false
  | S fuel' =>
      if String.eqb (substring i (String.length substr) s) substr then true
      else contains_loop s substr (S i) fuel'
  end.

Definition contains (s substr : string) : bool :=
  contains_loop s substr 0
    (Z.to_nat (Z.of_nat (String.length s) - Z.of_nat (String.length substr) + 1)).

(** The response of the [RestartList] handler after a successful restart,
    from the [HX-Target] and [HX-Current-URL] headers and the id parameter. *)
Inductive restart_response := RenderListItem | RefreshPage | EmptyBody.

Definition RestartList_response (hxTarget hxCurrentURL idParam : string) : restart_response :=
  if String.eqb hxTarget ("list-" ++ idParam) || contains hxCurrentURL "/lists" then
    RenderListItem
  else if negb (contains hxCurrentURL "/lists") && contains hxCurrentURL "/lists/" then
    RefreshPage
  else EmptyBody.

(** *** Helpers of the statements *)

(** The exchange of the two values [a] and [b]. *)
Definition swap_val (a b x : Z) : Z :=
  if x =? a then b else if x =? b then a else x.

(** The case-insensitive key of a history row. *)
Definition history_key (h : HistoryRow) : string := ToLower (h_Name h).

Definition total_usage (hs : list HistoryRow) : Z :=
  fold_right Z.add 0 (map h_UsageCount hs).

#[global] Instance io_le_trans : Transitive io_le.
Proof. intros a b c. unfold io_le. lia. Qed.

#[global] Instance io_ge_total : Total (flip io_le).
Proof. intros a b. unfold flip, io_le. lia. Qed.

#[global] Instance io_ge_trans : Transitive (flip io_le).
Proof. intros a b c. unfold flip, io_le. lia. Qed.

(** ** Example data *)

Definition ex_dest : list Item :=
  [mkItem 1 10 false 0; mkItem 2 10 false 1; mkItem 3 10 false 2;
   mkItem 4 20 false 0].

Definition ex_source : list Item :=
  [mkItem 1 10 false 0; mkItem 2 10 false 1; mkItem 3 10 false 2].

Definition ex_lists_gap : list DbList :=
  [mkList 1 "A" 0 true 0; mkList 2 "B" 2 false 0].

Definition ex_sections_gap : list Section :=
  [mkSection 1 5 0; mkSection 2 5 2].

Definition ex_items_gap : list Item :=
  [mkItem 1 10 false 0; mkItem 2 10 false 2].

Definition ex_lists_shifted : list DbList :=
  [mkList 1 "A" 1 true 0; mkList 2 "B" 2 false 0].

Definition ex_items_shifted : list Item :=
  [mkItem 1 10 false 1; mkItem 2 10 false 2].

Definition ex_history : list ItemSuggestion :=
  [mkSuggestion "Milk" 1 "Dairy" 5; mkSuggestion "Almond Milk" 1 "Dairy" 20;
   mkSuggestion "Silk" 2 "Other" 1].


Definition ex_lists_shifted_dense : list DbList :=
  [mkList 1 "A" 0 true 0; mkList 2 "B" 1 false 0; mkList 3 "C" 2 false 0].

(** * Properties *)

Example lev_kitten : levenshteinDistance "kitten" "Sitting" = 3%nat.
Proof. vm_compute. reflexivity. Qed.

Example lev_silk : levenshteinDistance "Silk" "milk" = 1%nat.
Proof. vm_compute. reflexivity. Qed.

Example lev_spec_kitten :
  lev_spec (list_ascii_of_string "kitten") (list_ascii_of_string "sitting") = 3%nat.
Proof. vm_compute. reflexivity. Qed.

Example fields_ex : Fields "  almond   milk " = ["almond"; "milk"]%string.
Proof. vm_compute. reflexivity. Qed.


Example ex_move_at_1 :
  match MoveItemToSectionAtPosition ex_dest 4 10 1 with
  | Ok (st, _) => st = [mkItem 1 10 false 0; mkItem 2 10 false 2;
                        mkItem 3 10 false 3; mkItem 4 10 false 1]
  | Err _ => False
  end.
Proof. vm_compute. reflexivity. Qed.

Example ex_reorder :
  match reorderItemInSection ex_dest 3 0 with
  | Ok (st, _) => st = [mkItem 1 10 false 1; mkItem 2 10 false 2;
                        mkItem 3 10 false 0; mkItem 4 20 false 0]
  | Err _ => False
  end.
Proof. vm_compute. reflexivity. Qed.

(** ** Generic facts on the row model *)

Lemma map_fmap_eq {A B} (f : A -> B) (l : list A) : map f l = f <$> l.
Proof. induction l as [|x l IH]; simpl; [done|by rewrite IH]. Qed.

Lemma find_item_map (f : Item -> Item) st id cur :
  (forall r, item_ID (f r) = item_ID r) ->
  find_item st id = Some cur -> find_item (map f st) id = Some (f cur).
Proof.
  intros Hf. induction st as [|r st IH]; simpl; [discriminate|].
  rewrite Hf. destruct (item_ID r =? id); [congruence|exact IH].
Qed.

Lemma find_item_In st id cur :
  find_item st id = Some cur -> In cur st /\ item_ID cur = id.
Proof.
  unfold find_item. intros H. split; [eapply List.find_some; eauto|].
  apply List.find_some in H. destruct H as [_ H]. by apply Z.eqb_eq.
Qed.

Lemma sql_max_spec x l :
  In (fold_left Z.max l x) (x :: l) /\ Forall (fun y => y <= fold_left Z.max l x) (x :: l).
Proof.
  revert x. induction l as [|y l IH]; intros x; simpl.
  - split; [by left|]. constructor; [lia|constructor].
  - destruct (IH (Z.max x y)) as [Hin Hall]. split.
    + destruct Hin as [Hin|Hin]; [|by right; right].
      rewrite <-Hin. destruct (Z.max_spec x y) as [[_ E]|[_ E]]; rewrite E;
        [right; left|left]; done.
    + inversion Hall as [|? ? Hm Hall']; subst.
      constructor; [lia|]. constructor; [lia|exact Hall'].
Qed.

(** The sort orders of the query [ORDER BY sort_order ASC] are the sorted
    list of the incomplete items' sort orders, whatever the tie order. *)
Lemma query_active_orders st sec act :
  Sorted Z.le act ->
  act ≡ₚ map item_SortOrder (active_rows sec st) ->
  map io_sortOrder (query_active_items st sec) = act.
Proof.
  intros Hs Hp. apply (Sorted_unique Z.le); [|exact Hs|].
  - rewrite map_fmap_eq. apply (Sorted_fmap io_sortOrder io_le Z.le).
    + intros a b Hab. exact Hab.
    + apply Sorted_merge_sort. apply _.
  - rewrite Hp. unfold query_active_items.
    transitivity (map io_sortOrder (map to_itemOrder (active_rows sec st))).
    + apply Permutation_map, merge_sort_Permutation.
    + rewrite map_map. reflexivity.
Qed.

Lemma target_sort_order_cases act orders pos :
  (forall first rest, act = first :: rest ->
     (pos <= 0 -> target_sort_order act orders pos = first) /\
     (Z.of_nat (length act) <= pos ->
        target_sort_order act orders pos = List.last act first + 1) /\
     (0 < pos < Z.of_nat (length act) ->
        target_sort_order act orders pos = nth (Z.to_nat pos) act first)) /\
  (act = [] -> orders = [] -> target_sort_order act orders pos = 0) /\
  (act = [] -> forall m ms, orders = m :: ms ->
     exists mx, In mx (m :: ms) /\ Forall (fun y => y <= mx) (m :: ms) /\
                target_sort_order act orders pos = mx + 1).
Proof.
  split; [|split].
  - intros first rest ->. unfold target_sort_order.
    split; [|split]; intros Hpos.
    + by rewrite (proj2 (Z.leb_le _ _) Hpos).
    + destruct (Z.leb_spec pos 0); [simpl in Hpos; lia|].
      by rewrite (proj2 (Z.geb_le _ _) Hpos).
    + rewrite (proj2 (Z.leb_gt _ _)) by lia.
      destruct (Z.geb_spec pos (Z.of_nat (length (first :: rest)))); [lia|done].
  - intros -> ->. reflexivity.
  - intros -> m ms ->. unfold target_sort_order, coalesce_max, sql_max.
    destruct (sql_max_spec m ms) as [Hin Hall]. by eexists.
Qed.

(** C4: a cross-section move picks [target] as the claim describes, shifts
    every destination item with [sort_order >= target] up by one, and writes
    the moved item with the destination section and [target]. *)
Theorem MoveItemToSectionAtPosition_shift_insert (st : list Item)
    (id dest pos : Z) (cur : Item) (act : list Z) :
  find_item st id = Some cur ->
  item_SectionID cur <> dest ->
  Sorted Z.le act ->
  act ≡ₚ map item_SortOrder (active_rows dest st) ->
  exists target it,
    MoveItemToSectionAtPosition st id dest pos =
      Ok (map (fun r =>
                 if item_ID r =? id then mkItem (item_ID r) dest (item_Completed r) target
                 else if (item_SectionID r =? dest) && (target <=? item_SortOrder r)
                 then set_sort_order (item_SortOrder r + 1) r
                 else r) st, it) /\
    (forall first rest, act = first :: rest ->
       (pos <= 0 -> target = first) /\
       (Z.of_nat (length act) <= pos -> target = List.last act first + 1) /\
       (0 < pos < Z.of_nat (length act) -> target = nth (Z.to_nat pos) act first)) /\
    (act = [] -> section_orders st dest = [] -> target = 0) /\
    (act = [] -> forall m ms, section_orders st dest = m :: ms ->
       exists mx, In mx (m :: ms) /\ Forall (fun y => y <= mx) (m :: ms) /\
                  target = mx + 1).
Proof.
  intros Hf Hne Hs Hp.
  exists (target_sort_order act (section_orders st dest) pos).
  unfold MoveItemToSectionAtPosition. rewrite Hf, (proj2 (Z.eqb_neq _ _) Hne).
  rewrite (query_active_orders st dest act Hs Hp).
  set (target := target_sort_order act (section_orders st dest) pos).
  set (g := fun r =>
              if item_ID r =? id then mkItem (item_ID r) dest (item_Completed r) target
              else if (item_SectionID r =? dest) && (target <=? item_SortOrder r)
              then set_sort_order (item_SortOrder r + 1) r
              else r).
  assert (Hst : move_row (shift_from st dest target) id dest target = map g st).
  { unfold move_row, shift_from. rewrite map_map. apply map_ext. intros r.
    unfold g. destruct ((item_SectionID r =? dest) && (target <=? item_SortOrder r));
      simpl; reflexivity. }
  rewrite Hst.
  assert (Hg : forall r, item_ID (g r) = item_ID r).
  { intros r. unfold g. destruct (item_ID r =? id); [reflexivity|].
    destruct (_ && _); reflexivity. }
  rewrite (find_item_map g st id cur Hg Hf).
  exists (g cur). split; [reflexivity|].
  apply target_sort_order_cases.
Qed.

(** Witness: the claim's example, position 1 over incomplete orders [0,1,2]. *)
Lemma MoveItemToSectionAtPosition_shift_insert_witness :
  find_item ex_dest 4 = Some (mkItem 4 20 false 0) /\ 20 <> 10 /\
  Sorted Z.le [0; 1; 2] /\
  [0; 1; 2] ≡ₚ map item_SortOrder (active_rows 10 ex_dest) /\
  exists target it,
    MoveItemToSectionAtPosition ex_dest 4 10 1 =
      Ok (map (fun r =>
                 if item_ID r =? 4 then mkItem (item_ID r) 10 (item_Completed r) target
                 else if (item_SectionID r =? 10) && (target <=? item_SortOrder r)
                 then set_sort_order (item_SortOrder r + 1) r
                 else r) ex_dest, it) /\
    (forall first rest, [0; 1; 2] = first :: rest ->
       (1 <= 0 -> target = first) /\
       (Z.of_nat (length [0; 1; 2]) <= 1 -> target = List.last [0; 1; 2] first + 1) /\
       (0 < 1 < Z.of_nat (length [0; 1; 2]) -> target = nth (Z.to_nat 1) [0; 1; 2] first)) /\
    ([0; 1; 2] = [] -> section_orders ex_dest 10 = [] -> target = 0) /\
    ([0; 1; 2] = [] -> forall m ms, section_orders ex_dest 10 = m :: ms ->
       exists mx, In mx (m :: ms) /\ Forall (fun y => y <= mx) (m :: ms) /\
                  target = mx + 1).
Proof.
  assert (H1 : find_item ex_dest 4 = Some (mkItem 4 20 false 0)) by reflexivity.
  assert (H2 : (20 <> 10)%Z) by lia.
  assert (H3 : Sorted Z.le [0; 1; 2]) by (repeat constructor; lia).
  assert (H4 : [0; 1; 2] ≡ₚ map item_SortOrder (active_rows 10 ex_dest)) by reflexivity.
  split; [exact H1|]. split; [exact H2|]. split; [exact H3|]. split; [exact H4|].
  exact (MoveItemToSectionAtPosition_shift_insert ex_dest 4 10 1 _ _ H1 H2 H3 H4).
Defined.

(** ** Dense renumbering of [reorderItemInSection] *)

Lemma index_of_notin x L : ~ In x L -> index_of x L = None.
Proof.
  induction L as [|y L IH]; simpl; intros Hn; [done|].
  destruct (Z.eqb_spec y x); [exfalso; auto|]. rewrite IH; auto.
Qed.

Lemma index_of_In x L : In x L -> exists j, index_of x L = Some j.
Proof.
  induction L as [|y L IH]; simpl; intros Hin; [done|].
  destruct (Z.eqb_spec y x); [by eexists|].
  destruct Hin as [->|Hin]; [done|]. destruct (IH Hin) as [j ->]. by eexists.
Qed.

Lemma assign_orders_map L n st :
  NoDup L ->
  assign_orders L n st =
    map (fun r => match index_of (item_ID r) L with
                  | Some j => set_sort_order (n + Z.of_nat j) r
                  | None => r
                  end) st.
Proof.
  revert n st. induction L as [|x L IH]; intros n st HL; simpl.
  - rewrite <-(map_id st) at 1. apply map_ext. reflexivity.
  - inversion HL as [|? ? Hx HL']; subst.
    rewrite IH by exact HL'. unfold update_sort_order_by_id. rewrite map_map.
    apply map_ext. intros r. destruct (Z.eqb_spec (item_ID r) x) as [E|E].
    + rewrite (proj2 (Z.eqb_eq x (item_ID r))) by lia. simpl.
      rewrite E, index_of_notin by (rewrite <-list_elem_of_In; exact Hx).
      unfold set_sort_order. simpl.
      f_equal. lia.
    + rewrite (proj2 (Z.eqb_neq x (item_ID r))) by lia.
      destruct (index_of (item_ID r) L); simpl; [|done].
      unfold set_sort_order. f_equal. lia.
Qed.

Lemma assign_orders_app l1 l2 n st :
  assign_orders (l1 ++ l2) n st =
    assign_orders l2 (n + Z.of_nat (length l1)) (assign_orders l1 n st).
Proof.
  revert n st. induction l1 as [|x l1 IH]; intros n st; simpl.
  - by rewrite Z.add_0_r.
  - rewrite IH. f_equal. lia.
Qed.

Lemma renumber_loop_after tp id rest : forall st i n,
  tp < i ->
  renumber_loop st id tp rest i n =
    (assign_orders (map io_id rest) n st, n + Z.of_nat (length rest)).
Proof.
  induction rest as [|it rest IH]; intros st i n Hi; simpl.
  - by rewrite Z.add_0_r.
  - rewrite (proj2 (Z.eqb_neq i tp)) by lia.
    rewrite IH by lia. f_equal. lia.
Qed.

Lemma renumber_loop_before tp id rest : forall st i n,
  i <= tp ->
  renumber_loop st id tp rest i n =
    if (Z.to_nat (tp - i) <? length rest)%nat then
      (assign_orders (map io_id (firstn (Z.to_nat (tp - i)) rest) ++
                      id :: map io_id (skipn (Z.to_nat (tp - i)) rest)) n st,
       n + Z.of_nat (length rest) + 1)
    else (assign_orders (map io_id rest) n st, n + Z.of_nat (length rest)).
Proof.
  induction rest as [|it rest IH]; intros st i n Hi; simpl.
  - by rewrite Z.add_0_r.
  - destruct (Z.eqb_spec i tp) as [->|Hne].
    + rewrite Z.sub_diag. simpl.
      rewrite renumber_loop_after by lia. f_equal; try reflexivity; lia.
    + rewrite IH by lia.
      replace (Z.to_nat (tp - i)) with (S (Z.to_nat (tp - (i + 1)))) by lia.
      simpl. set (k := Z.to_nat (tp - (i + 1))).
      destruct (Nat.ltb_spec k (length rest));
        destruct (Nat.ltb_spec (S k) (S (length rest))); try lia;
        f_equal; try reflexivity; lia.
Qed.

Lemma find_item_update st id x v c :
  find_item st id = Some c ->
  exists c', find_item (update_sort_order_by_id st x v) id = Some c'.
Proof.
  intros H. eexists. apply find_item_map; [|exact H].
  intros r. destruct (item_ID r =? x); reflexivity.
Qed.

Lemma find_item_assign L n st id c :
  find_item st id = Some c ->
  exists c', find_item (assign_orders L n st) id = Some c'.
Proof.
  revert n st c. induction L as [|x L IH]; intros n st c H; simpl; [by eexists|].
  destruct (find_item_update st id x n c H) as [c' H']. exact (IH _ _ _ H').
Qed.

(** Net effect of [reorderItemInSection]: the other incomplete items, in
    query order, with the moved item inserted at the clamped position, get
    the sort orders 0, 1, 2, ... *)
Lemma reorderItemInSection_effect st id pos cur :
  find_item st id = Some cur ->
  let others := query_other_active_items st (item_SectionID cur) id in
  let k := Z.to_nat (Z.min (Z.max pos 0) (Z.of_nat (length others))) in
  exists it,
    reorderItemInSection st id pos =
      Ok (assign_orders (map io_id (firstn k others) ++ id ::
                         map io_id (skipn k others)) 0 st, it).
Proof.
  intros Hf others k. unfold reorderItemInSection. rewrite Hf. fold others.
  set (len := Z.of_nat (length others)).
  assert (Htp : (if (if pos <? 0 then 0 else pos) >? len then len
                 else if pos <? 0 then 0 else pos) = Z.min (Z.max pos 0) len).
  { destruct (Z.ltb_spec pos 0);
      [destruct (Z.gtb_spec 0 len)|destruct (Z.gtb_spec pos len)]; lia. }
  rewrite Htp. set (tp := Z.min (Z.max pos 0) len).
  assert (Hrange : 0 <= tp <= len) by (unfold tp; lia).
  assert (Hk : k = Z.to_nat tp) by reflexivity.
  rewrite (renumber_loop_before tp id others st 0 0) by lia.
  rewrite Z.sub_0_r, <-Hk.
  destruct (Nat.ltb_spec k (length others)) as [Hlt|Hge].
  - destruct (Z.geb_spec tp len) as [Hc|Hc]; [lia|].
    destruct (find_item_assign (map io_id (firstn k others) ++ id ::
               map io_id (skipn k others)) 0 st id cur Hf) as [c' Hc'].
    rewrite Hc'. by exists c'.
  - assert (Hkl : k = length others) by lia.
    rewrite (proj2 (Z.geb_le tp len)) by lia.
    rewrite Hkl, firstn_all, skipn_all. simpl.
    rewrite assign_orders_app. rewrite length_map. simpl.
    destruct (find_item_assign (map io_id others ++ [id]) 0 st id cur Hf) as [c' Hc'].
    rewrite assign_orders_app, length_map in Hc'. simpl in Hc'.
    rewrite Hc'. by exists c'.
Qed.

Lemma NoDup_ids_filter p st :
  NoDup (map item_ID st) -> NoDup (map item_ID (List.filter p st)).
Proof.
  induction st as [|r st IH]; simpl; intros Hnd; [constructor|].
  apply NoDup_cons in Hnd as [Hr Hnd]. destruct (p r); simpl; [|auto].
  apply NoDup_cons. split; [|auto].
  intros Hin. apply Hr. rewrite list_elem_of_In in Hin |- *.
  apply in_map_iff in Hin as (r' & Hid & Hin). apply in_map_iff.
  exists r'. split; [exact Hid|]. by apply List.filter_In in Hin as [? _].
Qed.

Lemma filter_notin_id sec id st :
  ~ In id (map item_ID st) ->
  List.filter (fun r => is_active_in sec r && negb (item_ID r =? id)) st =
  List.filter (is_active_in sec) st.
Proof.
  induction st as [|r st IH]; simpl; intros Hn; [done|].
  rewrite (proj2 (Z.eqb_neq (item_ID r) id)) by (intros E; apply Hn; left; done).
  rewrite andb_true_r, IH by auto. reflexivity.
Qed.

Lemma active_ids_perm sec id st cur :
  NoDup (map item_ID st) -> In cur st -> item_ID cur = id ->
  is_active_in sec cur = true ->
  map item_ID (active_rows sec st) ≡ₚ
    id :: map item_ID
      (List.filter (fun r => is_active_in sec r && negb (item_ID r =? id)) st).
Proof.
  unfold active_rows. induction st as [|r st IH]; simpl; intros Hnd Hin Hid Hact;
    [done|].
  apply NoDup_cons in Hnd as [Hr Hnd]. rewrite list_elem_of_In in Hr.
  destruct Hin as [<-|Hin].
  - rewrite Hact, Hid, Z.eqb_refl. simpl.
    rewrite filter_notin_id by (rewrite <-Hid; exact Hr). by rewrite Hid.
  - assert (Hne : item_ID r <> id).
    { intros E. apply Hr. rewrite E, <-Hid. by apply in_map. }
    rewrite (proj2 (Z.eqb_neq _ _) Hne), andb_true_r.
    destruct (is_active_in sec r); simpl; [|auto].
    rewrite IH by auto. constructor.
Qed.

Lemma query_other_ids st sec id :
  map io_id (query_other_active_items st sec id) ≡ₚ
    map item_ID (List.filter (fun r => is_active_in sec r && negb (item_ID r =? id)) st).
Proof.
  unfold query_other_active_items.
  rewrite (Permutation_map io_id (merge_sort_Permutation io_le _)), map_map.
  reflexivity.
Qed.

Lemma insert_at_perm {A} (l : list A) k x :
  firstn k l ++ x :: skipn k l ≡ₚ x :: l.
Proof.
  rewrite <-Permutation_middle. f_equiv. by rewrite firstn_skipn.
Qed.

Lemma filter_map_commute (p : Item -> bool) (f : Item -> Item) st :
  (forall r, p (f r) = p r) ->
  List.filter p (map f st) = map f (List.filter p st).
Proof.
  intros Hp. induction st as [|r st IH]; simpl; [done|].
  rewrite Hp. destruct (p r); simpl; by rewrite IH.
Qed.

Lemma index_of_self L :
  NoDup L -> map (fun x => index_of x L) L = map Some (seq 0 (length L)).
Proof.
  induction L as [|x L IH]; simpl; intros Hnd; [done|].
  apply NoDup_cons in Hnd as [Hx Hnd]. rewrite list_elem_of_In in Hx.
  rewrite Z.eqb_refl. f_equal.
  rewrite <-seq_shift, map_map.
  transitivity (map (option_map S) (map (fun y => index_of y L) L)).
  - rewrite map_map. apply map_ext_in. intros y Hy.
    rewrite (proj2 (Z.eqb_neq x y)) by (intros ->; contradiction). reflexivity.
  - rewrite IH by exact Hnd. rewrite map_map. reflexivity.
Qed.

(** C1 (as amended): a same-section reorder of an incomplete item, entered
    through [reorderItemInSection] or through [MoveItemToSectionAtPosition]
    with the item's own section, leaves the incomplete items of that section
    with the sort orders 0 .. n-1, each exactly once. *)
Theorem reorderItemInSection_dense (st : list Item) (id pos : Z) (cur : Item) :
  NoDup (map item_ID st) ->
  find_item st id = Some cur ->
  item_Completed cur = false ->
  exists st' it,
    reorderItemInSection st id pos = Ok (st', it) /\
    MoveItemToSectionAtPosition st id (item_SectionID cur) pos = Ok (st', it) /\
    length (active_rows (item_SectionID cur) st') =
      length (active_rows (item_SectionID cur) st) /\
    map item_SortOrder (active_rows (item_SectionID cur) st') ≡ₚ
      map Z.of_nat (seq 0 (length (active_rows (item_SectionID cur) st'))).
Proof.
  intros Hnd Hf Hc. set (sec := item_SectionID cur).
  destruct (reorderItemInSection_effect st id pos cur Hf) as [it Heq].
  revert Heq.
  set (others := query_other_active_items st sec id).
  set (k := Z.to_nat (Z.min (Z.max pos 0) (Z.of_nat (length others)))).
  set (L := map io_id (firstn k others) ++ id :: map io_id (skipn k others)).
  intros Heq.
  destruct (find_item_In st id cur Hf) as [Hin Hid].
  set (A := active_rows sec st).
  assert (HL : L ≡ₚ map item_ID A).
  { unfold L, A. rewrite <-firstn_map, <-skipn_map, insert_at_perm.
    rewrite (active_ids_perm sec id st cur Hnd Hin Hid)
      by (unfold is_active_in, sec; rewrite Z.eqb_refl, Hc; reflexivity).
    constructor. apply query_other_ids. }
  assert (HndL : NoDup L).
  { rewrite HL. apply NoDup_ids_filter, Hnd. }
  set (f := fun r => match index_of (item_ID r) L with
                     | Some j => set_sort_order (0 + Z.of_nat j) r
                     | None => r
                     end).
  assert (Hst' : assign_orders L 0 st = map f st) by (apply assign_orders_map, HndL).
  assert (Hact : active_rows sec (map f st) = map f A).
  { apply filter_map_commute. intros r. unfold f.
    destruct (index_of (item_ID r) L); reflexivity. }
  exists (assign_orders L 0 st), it.
  split; [exact Heq|]. split.
  { unfold MoveItemToSectionAtPosition. rewrite Hf, Z.eqb_refl. exact Heq. }
  rewrite Hst'. fold sec. rewrite Hact, length_map. split; [reflexivity|].
  set (h := fun x => match index_of x L with Some j => Z.of_nat j | None => 0 end).
  transitivity (map h L).
  - rewrite map_map. transitivity (map h (map item_ID A)).
    + rewrite map_map. apply Permutation_refl'. apply map_ext_in. intros r Hr.
      assert (HrL : In (item_ID r) L).
      { apply (Permutation_in _ (symmetry HL)). by apply in_map. }
      destruct (index_of_In _ _ HrL) as [j Hj].
      unfold f, h. rewrite Hj. reflexivity.
    + apply Permutation_map. symmetry. exact HL.
  - replace (length A) with (length L)
      by (rewrite (Permutation_length HL), length_map; reflexivity).
    transitivity (map (fun o => match o with Some j => Z.of_nat j | None => 0 end)
                    (map (fun x => index_of x L) L)).
    + rewrite map_map. reflexivity.
    + rewrite index_of_self by exact HndL. rewrite map_map. reflexivity.
Qed.

Lemma reorderItemInSection_dense_witness :
  NoDup (map item_ID ex_dest) /\
  find_item ex_dest 3 = Some (mkItem 3 10 false 2) /\
  item_Completed (mkItem 3 10 false 2) = false /\
  exists st' it,
    reorderItemInSection ex_dest 3 0 = Ok (st', it) /\
    MoveItemToSectionAtPosition ex_dest 3 (item_SectionID (mkItem 3 10 false 2)) 0 =
      Ok (st', it) /\
    length (active_rows (item_SectionID (mkItem 3 10 false 2)) st') =
      length (active_rows (item_SectionID (mkItem 3 10 false 2)) ex_dest) /\
    map item_SortOrder (active_rows (item_SectionID (mkItem 3 10 false 2)) st') ≡ₚ
      map Z.of_nat (seq 0 (length (active_rows (item_SectionID (mkItem 3 10 false 2)) st'))).
Proof.
  assert (H1 : NoDup (map item_ID ex_dest)) by (apply (bool_decide_unpack _); vm_compute; exact I).
  assert (H2 : find_item ex_dest 3 = Some (mkItem 3 10 false 2)) by reflexivity.
  assert (H3 : item_Completed (mkItem 3 10 false 2) = false) by reflexivity.
  split; [exact H1|]. split; [exact H2|]. split; [exact H3|].
  exact (reorderItemInSection_dense ex_dest 3 0 _ H1 H2 H3).
Defined.


(** C1 fails for a cross-section move: moving the first item of a section
    to another section leaves the source's incomplete orders at [1; 2]. *)
Lemma MoveItemToSectionAtPosition_not_dense :
  exists st' it,
    MoveItemToSectionAtPosition ex_source 1 20 0 = Ok (st', it) /\
    map item_SortOrder (active_rows 10 st') = [1; 2] /\
    ~ (map item_SortOrder (active_rows 10 st') ≡ₚ
         map Z.of_nat (seq 0 (length (active_rows 10 st')))).
Proof.
  eexists _, _. split; [vm_compute; reflexivity|].
  simpl. split; [reflexivity|]. intros Hp.
  assert (H0 : In 0 [1; 2]) by (apply (Permutation_in _ (symmetry Hp)); left; done).
  simpl in H0. lia.
Qed.




(** ** Swap-adjacent moves *)

(** C2 (code_bug): with a gap in the list orders (list B at 2, list A at 0,
    nothing at 1), [MoveListUp B] only rewrites B's order to 1 and A keeps 0:
    no swap happens; [MoveSectionUp] does the same, while [MoveItemUp] on the
    same shape of data swaps the two orders. *)
Theorem MoveListUp_gap_no_swap :
  MoveListUp ex_lists_gap 2 = Ok [mkList 1 "A" 0 true 0; mkList 2 "B" 1 false 0] /\
  MoveSectionUp ex_sections_gap 2 = Ok [mkSection 1 5 0; mkSection 2 5 1] /\
  MoveItemUp ex_items_gap 2 = Ok [mkItem 1 10 false 2; mkItem 2 10 false 0].
Proof. split; [|split]; vm_compute; reflexivity. Qed.



(** C8 (code_bug): when the first list has order 1 (the list at 0 was
    deleted), [MoveListUp] on it rewrites its order to 0 instead of leaving
    the orders unchanged; [MoveItemUp] on the first item is a no-op. *)
Theorem MoveListUp_first_not_noop :
  MoveListUp ex_lists_shifted 1 = Ok [mkList 1 "A" 0 true 0; mkList 2 "B" 2 false 0] /\
  MoveItemUp ex_items_shifted 1 = Ok ex_items_shifted.
Proof. split; vm_compute; reflexivity. Qed.

(** ** Active list *)

(** C5 (code_bug): [SetActiveList] on an id that names no list reports
    success and clears the active flag of every list; [DeleteItem] on a
    missing id reports success. *)
Theorem SetActiveList_missing_succeeds :
  SetActiveList [mkList 1 "A" 0 true 0] 7 100 = Ok [mkList 1 "A" 0 false 0] /\
  DeleteItem ex_dest 99 = Ok ex_dest.
Proof. split; reflexivity. Qed.

Lemma SetActiveList_ids ls id now ls' :
  SetActiveList ls id now = Ok ls' -> map list_ID ls' = map list_ID ls.
Proof.
  unfold SetActiveList. intros H. injection H as <-. rewrite !map_map.
  apply map_ext. intros l. simpl. destruct (list_ID l =? id); reflexivity.
Qed.

(** C6 (as amended): for a list [X] that exists, after [SetActiveList X] the
    active lists are exactly [X]. *)
Theorem SetActiveList_singleton (ls : list DbList) (X now : Z) :
  NoDup (map list_ID ls) ->
  In X (map list_ID ls) ->
  exists ls',
    SetActiveList ls X now = Ok ls' /\
    map list_ID ls' = map list_ID ls /\
    map list_ID (List.filter list_IsActive ls') = [X].
Proof.
  intros Hnd Hin. eexists. split; [reflexivity|]. split.
  { eapply SetActiveList_ids. reflexivity. }
  rewrite map_map. induction ls as [|l ls IH]; simpl in *; [done|].
  apply NoDup_cons in Hnd as [Hl Hnd]. rewrite list_elem_of_In in Hl.
  destruct (Z.eqb_spec (list_ID l) X) as [E|E]; simpl.
  - f_equal; [exact E|]. subst X.
    clear IH Hin. induction ls as [|l' ls IH']; simpl; [done|].
    simpl in Hl. rewrite (proj2 (Z.eqb_neq (list_ID l') (list_ID l))) by
      (intros E'; apply Hl; left; exact E').
    simpl. apply IH'; [|by apply NoDup_cons in Hnd as [_ ?]].
    intros Hin'. apply Hl. right. exact Hin'.
  - destruct Hin as [Hin|Hin]; [contradiction|]. exact (IH Hnd Hin).
Qed.

Lemma SetActiveList_singleton_witness :
  NoDup (map list_ID ex_lists_gap) /\ In 2 (map list_ID ex_lists_gap) /\
  exists ls',
    SetActiveList ex_lists_gap 2 100 = Ok ls' /\
    map list_ID ls' = map list_ID ex_lists_gap /\
    map list_ID (List.filter list_IsActive ls') = [2].
Proof.
  assert (H1 : NoDup (map list_ID ex_lists_gap))
    by (apply (bool_decide_unpack _); vm_compute; exact I).
  assert (H2 : In 2 (map list_ID ex_lists_gap)) by (simpl; auto).
  split; [exact H1|]. split; [exact H2|].
  exact (SetActiveList_singleton ex_lists_gap 2 100 H1 H2).
Defined.

(** C6 fails as a store-wide invariant: the first list created in an empty
    store is not active. *)
Lemma CreateList_first_inactive :
  exists ls l,
    CreateList [] "Groceries" = Ok (ls, l) /\
    length ls = 1%nat /\ List.filter list_IsActive ls = [].
Proof. eexists _, _. split; [reflexivity|]. split; reflexivity. Qed.

(** ** [levenshteinDistance] is the edit distance of the case-folded strings *)

Section Levenshtein.
Local Open Scope nat_scope.

Lemma lev_cost_le x y : lev_cost x y <= 1.
Proof. unfold lev_cost. destruct (ascii_dec x y); lia. Qed.

Lemma lev_cost_refl x : lev_cost x x = 0.
Proof. unfold lev_cost. destruct (ascii_dec x x); [done|contradiction]. Qed.

Lemma lev_spec_nil_r a : lev_spec a [] = length a.
Proof. destruct a; reflexivity. Qed.

Lemma lev_spec_cons x a y b :
  lev_spec (x :: a) (y :: b) =
    Nat.min (Nat.min (lev_spec a (y :: b) + 1) (lev_spec (x :: a) b + 1))
            (lev_spec a b + lev_cost x y).
Proof. reflexivity. Qed.

Lemma align_inserts b : align [] b (length b).
Proof. induction b; simpl; [apply al_nil|apply al_ins; auto]. Qed.

Lemma align_deletes a : align a [] (length a).
Proof. induction a; simpl; [apply al_nil|apply al_del; auto]. Qed.

Lemma lev_spec_align a b : align a b (lev_spec a b).
Proof.
  revert b. induction a as [|x a IHa]; intros b; [apply align_inserts|].
  induction b as [|y b IHb]; [rewrite lev_spec_nil_r; apply align_deletes|].
  rewrite lev_spec_cons.
  destruct (Nat.min_spec (Nat.min (lev_spec a (y :: b) + 1) (lev_spec (x :: a) b + 1))
              (lev_spec a b + lev_cost x y)) as [[_ ->]|[_ ->]].
  - destruct (Nat.min_spec (lev_spec a (y :: b) + 1) (lev_spec (x :: a) b + 1))
      as [[_ ->]|[_ ->]]; rewrite Nat.add_1_r.
    + apply al_del. apply IHa.
    + apply al_ins. exact IHb.
  - apply al_sub. apply IHa.
Qed.

Lemma lev_spec_le_del x a b : lev_spec (x :: a) b <= lev_spec a b + 1.
Proof.
  destruct b as [|y b].
  - rewrite !lev_spec_nil_r. simpl. lia.
  - rewrite lev_spec_cons. lia.
Qed.

Lemma lev_spec_le_ins a y b : lev_spec a (y :: b) <= lev_spec a b + 1.
Proof.
  destruct a as [|x a].
  - simpl. lia.
  - rewrite lev_spec_cons. lia.
Qed.

Lemma lev_spec_min a b n : align a b n -> lev_spec a b <= n.
Proof.
  induction 1 as [|x a b n H IH|y a b n H IH|x y a b n H IH].
  - reflexivity.
  - pose proof (lev_spec_le_del x a b). lia.
  - pose proof (lev_spec_le_ins a y b). lia.
  - rewrite lev_spec_cons. lia.
Qed.

Lemma align_app a b n a' b' m :
  align a b n -> align a' b' m -> align (a ++ a') (b ++ b') (n + m).
Proof.
  induction 1; intros H'; simpl.
  - exact H'.
  - constructor. auto.
  - constructor. auto.
  - replace (n + lev_cost x y + m) with (n + m + lev_cost x y) by lia.
    constructor. auto.
Qed.

Lemma align_rev a b n : align a b n -> align (rev a) (rev b) n.
Proof.
  induction 1 as [|x a b n H IH|y a b n H IH|x y a b n H IH]; simpl.
  - constructor.
  - rewrite <-(app_nil_r (rev b)), <-Nat.add_1_r.
    apply align_app; [exact IH|]. constructor. constructor.
  - rewrite <-(app_nil_r (rev a)), <-Nat.add_1_r.
    apply align_app; [exact IH|]. constructor. constructor.
  - apply align_app; [exact IH|].
    replace (lev_cost x y) with (0 + lev_cost x y) by lia. constructor. constructor.
Qed.

Lemma lev_spec_rev a b : lev_spec (rev a) (rev b) = lev_spec a b.
Proof.
  apply Nat.le_antisymm; apply lev_spec_min.
  - apply align_rev, lev_spec_align.
  - rewrite <-(rev_involutive a), <-(rev_involutive b) at 1.
    apply align_rev, lev_spec_align.
Qed.

(** The recurrence on the last characters, the one the matrix follows. *)
Lemma lev_spec_snoc p x q y :
  lev_spec (p ++ [x]) (q ++ [y]) =
    Nat.min (Nat.min (lev_spec p (q ++ [y]) + 1) (lev_spec (p ++ [x]) q + 1))
            (lev_spec p q + lev_cost x y).
Proof.
  assert (Hp : rev (p ++ [x]) = x :: rev p) by (rewrite rev_app_distr; reflexivity).
  assert (Hq : rev (q ++ [y]) = y :: rev q) by (rewrite rev_app_distr; reflexivity).
  rewrite <-(lev_spec_rev (p ++ [x]) (q ++ [y])), Hp, Hq, lev_spec_cons.
  rewrite <-(lev_spec_rev p (q ++ [y])), <-(lev_spec_rev (p ++ [x]) q),
    <-(lev_spec_rev p q), Hp, Hq. reflexivity.
Qed.

(** Each row of the matrix holds the edit distances between the prefix of
    [s1] read so far and the prefixes of [s2]. *)
Lemma lev_row_correct p x b : forall q,
  lev_row x b (lev_spec p q) (map (fun r => lev_spec p (q ++ r)) (ninits b))
    (lev_spec (p ++ [x]) q) =
  map (fun r => lev_spec (p ++ [x]) (q ++ r)) (ninits b).
Proof.
  induction b as [|y b IH]; intros q; [reflexivity|].
  cbn [ninits map lev_row].
  rewrite <-lev_spec_snoc. f_equal.
  rewrite !map_map.
  replace (map (fun x0 => lev_spec p (q ++ y :: x0)) (ninits b))
    with (map (fun r => lev_spec p ((q ++ [y]) ++ r)) (ninits b))
    by (apply map_ext; intros r; by rewrite <-app_assoc).
  replace (map (fun x0 => lev_spec (p ++ [x]) (q ++ y :: x0)) (ninits b))
    with (map (fun r => lev_spec (p ++ [x]) ((q ++ [y]) ++ r)) (ninits b))
    by (apply map_ext; intros r; by rewrite <-app_assoc).
  apply IH.
Qed.

Lemma lev_rows_correct b s1 : forall p,
  lev_rows s1 b (length p) (length p :: map (fun r => lev_spec p r) (ninits b)) =
  length (p ++ s1) :: map (fun r => lev_spec (p ++ s1) r) (ninits b).
Proof.
  induction s1 as [|x s1 IH]; intros p; cbn [lev_rows].
  - by rewrite app_nil_r.
  - pose proof (lev_row_correct p x b []) as Hrow. cbn [app] in Hrow.
    rewrite !lev_spec_nil_r in Hrow.
    cbn [hd tl].
    replace (S (length p)) with (length (p ++ [x])) by (rewrite length_app; simpl; lia).
    rewrite Hrow, IH, <-app_assoc. reflexivity.
Qed.

Lemma ninits_lengths b : map (@length ascii) (ninits b) = seq 1 (length b).
Proof.
  induction b as [|y b IH]; [reflexivity|]. simpl. f_equal.
  rewrite map_map. simpl. rewrite <-seq_shift, <-IH, map_map. reflexivity.
Qed.

Lemma ninits_last {B} (f : list ascii -> B) b d :
  b <> [] -> List.last (map f (ninits b)) d = f b.
Proof.
  revert f. induction b as [|y b IH]; intros f Hb; [done|].
  destruct b as [|y' b]; [reflexivity|].
  cbn [ninits map]. rewrite map_map.
  change (List.last (f [y] :: map (fun x => f (y :: x)) (ninits (y' :: b))) d =
          f (y :: y' :: b)).
  assert (Hne : map (fun x => f (y :: x)) (ninits (y' :: b)) <> []) by (simpl; done).
  destruct (map (fun x => f (y :: x)) (ninits (y' :: b))) eqn:E; [done|].
  rewrite <-E. apply (IH (fun x => f (y :: x))). done.
Qed.

Lemma levenshteinDistance_spec s1 s2 :
  levenshteinDistance s1 s2 =
    lev_spec (list_ascii_of_string (ToLower s1)) (list_ascii_of_string (ToLower s2)).
Proof.
  unfold levenshteinDistance.
  set (a := list_ascii_of_string (ToLower s1)).
  set (b := list_ascii_of_string (ToLower s2)).
  destruct (Nat.eqb_spec (length a) 0) as [Ha|Ha].
  { destruct a; [reflexivity|discriminate]. }
  destruct (Nat.eqb_spec (length b) 0) as [Hb|Hb].
  { destruct b; [by rewrite lev_spec_nil_r|discriminate]. }
  assert (Hinit : seq 0 (length b + 1) =
                  lev_spec [] [] :: map (fun r => lev_spec [] r) (ninits b)).
  { rewrite Nat.add_1_r. simpl. f_equal. rewrite <-ninits_lengths.
    apply map_ext. reflexivity. }
  rewrite Hinit. pose proof (lev_rows_correct b a []) as H. cbn [app length] in H.
  rewrite lev_spec_nil_r. cbn [length]. rewrite H. destruct b as [|y b]; [done|].
  rewrite <-(ninits_last (fun r => lev_spec a r) (y :: b) 0) by done.
  cbn [ninits map]. reflexivity.
Qed.

(** Alignments and single edits. *)
Lemma edit_step_cons x a b : edit_step a b -> edit_step (x :: a) (x :: b).
Proof.
  destruct 1 as [a1 a2 c|a1 a2 c|a1 a2 c d].
  - exact (es_ins (x :: a1) a2 c).
  - exact (es_del (x :: a1) a2 c).
  - exact (es_sub (x :: a1) a2 c d).
Qed.

Lemma edits_cons n x a b : edits n a b -> edits n (x :: a) (x :: b).
Proof.
  induction 1; [apply edits_refl|]. eapply edits_step; [|eassumption].
  by apply edit_step_cons.
Qed.

Lemma edits_snoc n a b c : edits n a b -> edit_step b c -> edits (S n) a c.
Proof.
  induction 1 as [a|n a b b' Hs H IH]; intros Hc.
  - eapply edits_step; [exact Hc|apply edits_refl].
  - eapply edits_step; [exact Hs|]. by apply IH.
Qed.

Lemma align_edits a b n : align a b n -> edits n a b.
Proof.
  induction 1 as [|x a b n H IH|y a b n H IH|x y a b n H IH].
  - apply edits_refl.
  - eapply edits_step; [exact (es_del [] a x)|exact IH].
  - eapply edits_snoc; [exact IH|exact (es_ins [] b y)].
  - unfold lev_cost. destruct (ascii_dec x y) as [<-|Hne].
    + rewrite Nat.add_0_r. by apply edits_cons.
    + rewrite Nat.add_1_r. eapply edits_step; [exact (es_sub [] a x y)|].
      by apply edits_cons.
Qed.

Lemma align_refl a : align a a 0.
Proof.
  induction a as [|x a IH]; [apply al_nil|].
  replace 0 with (0 + lev_cost x x) by (rewrite lev_cost_refl; done).
  by apply al_sub.
Qed.

Lemma align_remove a1 c a2 u m :
  align (a1 ++ c :: a2) u m -> exists m', align (a1 ++ a2) u m' /\ m' <= m + 1.
Proof.
  remember (a1 ++ c :: a2) as A eqn:HA. intros H. revert a1 HA.
  induction H as [|z A u n H IH|y A u n H IH|z y A u n H IH]; intros a1 HA.
  - destruct a1; discriminate.
  - destruct a1 as [|z' a1]; simpl in HA; injection HA as Hz HA'.
    + subst z A. exists n. split; [exact H|lia].
    + subst z'. destruct (IH a1 HA') as (m' & Hm' & Hle).
      exists (S m'). split; [apply al_del; exact Hm'|lia].
  - destruct (IH a1 HA) as (m' & Hm' & Hle).
    exists (S m'). split; [apply al_ins; exact Hm'|lia].
  - destruct a1 as [|z' a1]; simpl in HA; injection HA as Hz HA'.
    + subst z A. exists (S n). split; [apply al_ins; exact H|lia].
    + subst z'. destruct (IH a1 HA') as (m' & Hm' & Hle).
      exists (m' + lev_cost z y). split; [apply al_sub; exact Hm'|lia].
Qed.

Lemma align_subst a1 c d a2 u m :
  align (a1 ++ d :: a2) u m -> exists m', align (a1 ++ c :: a2) u m' /\ m' <= m + 1.
Proof.
  remember (a1 ++ d :: a2) as A eqn:HA. intros H. revert a1 HA.
  induction H as [|z A u n H IH|y A u n H IH|z y A u n H IH]; intros a1 HA.
  - destruct a1; discriminate.
  - destruct a1 as [|z' a1]; simpl in HA; injection HA as Hz HA'.
    + subst z A. exists (S n). split; [apply al_del; exact H|lia].
    + subst z'. destruct (IH a1 HA') as (m' & Hm' & Hle).
      exists (S m'). split; [apply al_del; exact Hm'|lia].
  - destruct (IH a1 HA) as (m' & Hm' & Hle).
    exists (S m'). split; [apply al_ins; exact Hm'|lia].
  - destruct a1 as [|z' a1]; simpl in HA; injection HA as Hz HA'.
    + subst z A. exists (n + lev_cost c y). split; [apply al_sub; exact H|].
      pose proof (lev_cost_le c y). lia.
    + subst z'. destruct (IH a1 HA') as (m' & Hm' & Hle).
      exists (m' + lev_cost z y). split; [apply al_sub; exact Hm'|lia].
Qed.

Lemma align_add a1 c a2 u m :
  align (a1 ++ a2) u m -> align (a1 ++ c :: a2) u (S m).
Proof.
  remember (a1 ++ a2) as A eqn:HA. intros H. revert a1 HA.
  induction H as [|z A u n H IH|y A u n H IH|z y A u n H IH]; intros a1 HA.
  - destruct a1; [|discriminate]. simpl in HA |- *. subst a2.
    apply al_del, al_nil.
  - destruct a1 as [|z' a1]; simpl in HA |- *.
    + subst a2. apply al_del, al_del, H.
    + injection HA as -> HA'. apply al_del, IH, HA'.
  - destruct a1 as [|z' a1]; simpl in HA |- *.
    + subst a2. apply al_del, al_ins, H.
    + apply al_ins. apply (IH (z' :: a1)), HA.
  - destruct a1 as [|z' a1]; simpl in HA |- *.
    + subst a2. apply al_del, al_sub, H.
    + injection HA as -> HA'. rewrite <-Nat.add_succ_l. apply al_sub, IH, HA'.
Qed.

Lemma edit_step_lev a b u : edit_step a b -> lev_spec a u <= lev_spec b u + 1.
Proof.
  destruct 1 as [a1 a2 c|a1 a2 c|a1 a2 c d].
  - destruct (align_remove a1 c a2 u _ (lev_spec_align _ u)) as (m' & Hm' & Hle).
    pose proof (lev_spec_min _ _ _ Hm'). lia.
  - pose proof (lev_spec_min _ _ _ (align_add a1 c a2 u _ (lev_spec_align _ u))). lia.
  - destruct (align_subst a1 c d a2 u _ (lev_spec_align _ u)) as (m' & Hm' & Hle).
    pose proof (lev_spec_min _ _ _ Hm'). lia.
Qed.

Lemma edits_lev n a b : edits n a b -> lev_spec a b <= n.
Proof.
  induction 1 as [a|n a b c Hs H IH].
  - pose proof (lev_spec_min _ _ _ (align_refl a)). lia.
  - pose proof (edit_step_lev a b c Hs). lia.
Qed.

(** [levenshteinDistance s1 s2] is the least number of single-byte
    insertions, deletions and substitutions turning the case-folded [s1]
    into the case-folded [s2]. *)
Theorem levenshteinDistance_edit_distance (s1 s2 : string) :
  edits (levenshteinDistance s1 s2)
        (list_ascii_of_string (ToLower s1)) (list_ascii_of_string (ToLower s2)) /\
  (forall n, edits n (list_ascii_of_string (ToLower s1))
                     (list_ascii_of_string (ToLower s2)) ->
             levenshteinDistance s1 s2 <= n).
Proof.
  rewrite levenshteinDistance_spec. split.
  - apply align_edits, lev_spec_align.
  - intros n. apply edits_lev.
Qed.

End Levenshtein.

(** ** Scoring and ranking *)

Lemma fuzzy_words_find ws q m :
  fuzzy_words ws q m =
  match List.find (fun w => (levenshteinDistance w q <=? m)%nat) ws with
  | Some w => 80 - 15 * Z.of_nat (levenshteinDistance w q)
  | None => 0
  end.
Proof.
  induction ws as [|w ws IH]; [done|]. cbn [fuzzy_words List.find].
  destruct (levenshteinDistance w q <=? m)%nat; [lia|exact IH].
Qed.

Lemma scoreSuggestion_amended name query :
  scoreSuggestion name query = score_amended name query.
Proof.
  unfold scoreSuggestion, score_amended.
  destruct (String.eqb _ _); [done|]. destruct (HasPrefix _ _); [done|].
  destruct (Contains _ _); [done|].
  destruct (Nat.leb_spec 3 (String.length query)) as [H3|H3].
  - replace (String.length query <? 3)%nat with false by (symmetry; apply Nat.ltb_ge; lia).
    destruct (_ <=? _)%nat; [lia|]. apply fuzzy_words_find.
  - replace (String.length query <? 3)%nat with true by (symmetry; apply Nat.ltb_lt; lia).
    done.
Qed.

Lemma score_rows_pool rows query :
  score_rows rows query = ranked_pool rows query.
Proof.
  unfold ranked_pool. induction rows as [|r rows IH]; [done|].
  cbn [score_rows List.filter]. rewrite scoreSuggestion_amended.
  destruct (0 <? score_amended (s_Name r) query); [|exact IH].
  cbn [map]. by rewrite IH.
Qed.

Lemma GetItemSuggestions_sorted history query limit :
  exists l, l ≡ₚ score_rows (take 200 history) query /\ Sorted score_rank l /\
    GetItemSuggestions history query limit =
    map fst (take (Z.to_nat (if limit <=? 0 then 10 else limit)) l).
Proof.
  exists (merge_sort score_rank (score_rows (take 200 history) query)).
  split; [apply merge_sort_Permutation|]. split; [apply Sorted_merge_sort; apply _|done].
Qed.


(** C3 (amended): every candidate is scored by the rule of [score_amended]
    (the per-word step takes the first word within the bound, not the best
    one); the result is the first [limit] (default 10) of the positively
    scored candidates among the first 200 history rows, boosted by
    [usage_count / 10] and sorted by score then usage count, both
    descending; Milk, Almond Milk and Silk come out in that order for the
    query "milk". *)
Theorem GetItemSuggestions_ranking (history : list ItemSuggestion) (query : string) (limit : Z) :
  (forall name, scoreSuggestion name query = score_amended name query) /\
  (exists l, l ≡ₚ ranked_pool (take 200 history) query /\ Sorted score_rank l /\
     GetItemSuggestions history query limit =
     map fst (take (Z.to_nat (if limit <=? 0 then 10 else limit)) l)) /\
  map s_Name (GetItemSuggestions ex_history "milk" 10) = ["Milk"; "Almond Milk"; "Silk"]%string.
Proof.
  split; [intros; apply scoreSuggestion_amended|]. split; [|vm_compute; reflexivity].
  rewrite <-score_rows_pool. apply GetItemSuggestions_sorted.
Qed.

(** C3: for the name "axyd abce" and the query "abcd", the first word
    "axyd" is at distance 2 (within the bound 2) and decides the score 50;
    the best word "abce", at distance 1, would give 65. *)
Theorem scoreSuggestion_first_word :
  scoreSuggestion "axyd abce" "abcd" = 50 /\ score_claimed "axyd abce" "abcd" = 65.
Proof. split; vm_compute; reflexivity. Qed.

Lemma ToLower_empty s : ToLower s = EmptyString <-> s = EmptyString.
Proof. destruct s; cbn; split; congruence. Qed.

Lemma scoreSuggestion_empty_query name :
  scoreSuggestion name "" = if String.eqb name "" then 1000 else 500.
Proof.
  unfold scoreSuggestion. cbn [ToLower].
  destruct (String.eqb_spec (ToLower name) "") as [E|E], (String.eqb_spec name "") as [F|F].
  - done.
  - apply (proj1 (ToLower_empty name)) in E. contradiction.
  - subst. done.
  - unfold HasPrefix. by destruct (ToLower name).
Qed.

Lemma score_rows_empty_query rows :
  score_rows rows "" =
  map (fun s => (s, (if String.eqb (s_Name s) "" then 1000 else 500)
                    + Z.quot (s_UsageCount s) 10)) rows.
Proof.
  induction rows as [|r rows IH]; [done|]. cbn [score_rows map].
  rewrite scoreSuggestion_empty_query, IH.
  by destruct (String.eqb (s_Name r) "").
Qed.

(** C10: with the empty query every name scores 500 (the empty name 1000),
    so [GetItemSuggestions] returns the first [limit] of the fetched rows
    ranked by [500 or 1000 + usage_count / 10], then usage count; the
    handler sends the empty query to [GetAllItemSuggestions] instead. *)
Theorem GetItemSuggestions_empty_query (history : list ItemSuggestion) (limit : Z) :
  (forall name, scoreSuggestion name "" = if String.eqb name "" then 1000 else 500) /\
  (exists l,
     l ≡ₚ map (fun s => (s, (if String.eqb (s_Name s) "" then 1000 else 500)
                            + Z.quot (s_UsageCount s) 10)) (take 200 history) /\
     Sorted score_rank l /\
     GetItemSuggestions history "" limit =
     map fst (take (Z.to_nat (if limit <=? 0 then 10 else limit)) l)) /\
  GetSuggestions history "" limit = GetAllItemSuggestions history limit.
Proof.
  split; [apply scoreSuggestion_empty_query|]. split; [|done].
  rewrite <-score_rows_empty_query. apply GetItemSuggestions_sorted.
Qed.

(** ** Byte-level distance *)

(** C9: "é" (U+00E9, the two UTF-8 bytes C3 A9) and "e" differ in one
    character, but [levenshteinDistance] indexes bytes and returns 2. *)
Theorem levenshteinDistance_multibyte :
  levenshteinDistance e_acute "e" = 2%nat /\ String.length e_acute = 2%nat /\
  ToLower e_acute = e_acute.
Proof. vm_compute. auto. Qed.

(** ** Item history *)

(** C7: the direct path merges "milk" and "MILK" into one row with usage
    count 2 and the new timestamp; [SaveItemHistoryTx] merges them too but
    keeps the old [last_used_at]. *)
Theorem SaveItemHistoryTx_keeps_timestamp :
  SaveItemHistory (SaveItemHistory [] "milk" 10 100) "MILK" 20 200 =
    [mkHistory 1 "milk" 20 2 200] /\
  SaveItemHistoryTx (SaveItemHistoryTx [] "milk" 10 100) "MILK" 20 200 =
    [mkHistory 1 "milk" 20 2 100].
Proof. split; vm_compute; reflexivity. Qed.

(** [DeleteItemHistory] reports a missing id as not found. *)
Example DeleteItemHistory_missing :
  DeleteItemHistory [mkHistory 1 "milk" 10 1 100] 7 = Err ErrHistoryNotFound.
Proof. vm_compute. reflexivity. Qed.

(** ** Swapping with the neighbour item *)

Lemma NoDup_map_eq {A B} (f : A -> B) l x y :
  NoDup (map f l) -> In x l -> In y l -> f x = f y -> x = y.
Proof.
  induction l as [|a l IH]; simpl; [tauto|].
  rewrite NoDup_cons. intros [Hn Hnd] Hx Hy Hxy.
  destruct Hx as [<-|Hx], Hy as [<-|Hy]; try done.
  - exfalso. apply Hn. rewrite Hxy. apply list_elem_of_In, in_map, Hy.
  - exfalso. apply Hn. rewrite <-Hxy. apply list_elem_of_In, in_map, Hx.
  - by apply IH.
Qed.

Lemma head_merge_sort {A} (R : relation A) `{!RelDecision R, !Total R, !Transitive R}
    (l : list A) h :
  head (merge_sort R l) = Some h -> In h l /\ Forall (R h) l.
Proof.
  pose proof (merge_sort_Permutation R l) as HP.
  pose proof (Sorted_merge_sort R l) as HS.
  destruct (merge_sort R l) as [|h' t]; [done|]. simpl. intros [= <-].
  apply Sorted_StronglySorted in HS; [|apply _].
  apply StronglySorted_inv in HS as [_ HS].
  split.
  - eapply Permutation_in; [exact HP|by left].
  - apply List.Forall_forall. intros x Hx.
    apply (Permutation_in _ (Permutation_sym HP)) in Hx as [<-|Hx].
    + destruct (total R h' h'); done.
    + rewrite List.Forall_forall in HS. by apply HS.
Qed.

Lemma head_merge_sort_None {A} (R : relation A) `{!RelDecision R} (l : list A) :
  head (merge_sort R l) = None -> l = [].
Proof.
  pose proof (merge_sort_Permutation R l) as HP.
  destruct (merge_sort R l); [|done]. intros _.
  apply Permutation_nil. by symmetry.
Qed.

Lemma set_sort_order_ID v r : item_ID (set_sort_order v r) = item_ID r.
Proof. reflexivity. Qed.

Lemma set_sort_order_self r : set_sort_order (item_SortOrder r) r = r.
Proof. by destruct r. Qed.

Lemma set_sort_order_twice u v r : set_sort_order u (set_sort_order v r) = set_sort_order u r.
Proof. reflexivity. Qed.

(** The two updates of a swap, as one pass over the rows. *)
Lemma swap_updates st id q vq vid :
  q <> id ->
  update_sort_order_by_id (update_sort_order_by_id st q vq) id vid =
  map (fun r => if item_ID r =? q then set_sort_order vq r
                else if item_ID r =? id then set_sort_order vid r else r) st.
Proof.
  intros Hq. unfold update_sort_order_by_id. rewrite map_map. apply map_ext. intros r.
  destruct (Z.eqb_spec (item_ID r) q) as [E|E]; rewrite ?set_sort_order_ID.
  - replace (item_ID r =? id) with false by (symmetry; apply Z.eqb_neq; lia). done.
  - done.
Qed.

Lemma MoveItemUp_cases (st : list Item) (id : Z) (cur : Item) :
  NoDup (map item_ID st) ->
  find_item st id = Some cur ->
  (Forall (fun r => ~ (item_SectionID r = item_SectionID cur /\
                       item_SortOrder r < item_SortOrder cur)) st /\
   MoveItemUp st id = Ok st) \/
  (exists p, In p st /\ item_SectionID p = item_SectionID cur /\
     item_SortOrder p < item_SortOrder cur /\
     (forall r, In r st -> item_SectionID r = item_SectionID cur ->
        item_SortOrder r < item_SortOrder cur -> item_SortOrder r <= item_SortOrder p) /\
     MoveItemUp st id =
       Ok (map (fun r => if item_ID r =? item_ID p then set_sort_order (item_SortOrder cur) r
                         else if item_ID r =? id then set_sort_order (item_SortOrder p) r
                         else r) st)).
Proof.
  intros Hnd Hf. destruct (find_item_In _ _ _ Hf) as [Hin Hid].
  unfold MoveItemUp. rewrite Hf. unfold query_prev_item.
  destruct (head _) as [prev|] eqn:Eh.
  - right. apply head_merge_sort in Eh as [HinP Hall]; [|apply _..].
    apply in_map_iff in HinP as [p [<- HpL]].
    apply filter_In in HpL as [Hp Hc].
    apply andb_true_iff in Hc as [Hs Ho]. apply Z.eqb_eq in Hs. apply Z.ltb_lt in Ho.
    assert (Hne : item_ID p <> id).
    { intros E. assert (p = cur) as -> by (apply (NoDup_map_eq item_ID st); auto; lia). lia. }
    exists p. split; [done|]. split; [done|]. split; [done|]. split.
    + intros r Hr Hrs Hro. rewrite List.Forall_forall in Hall.
      assert (Hx : In (to_itemOrder r) (map to_itemOrder
                 (List.filter (fun r => (item_SectionID r =? item_SectionID cur) &&
                                        (item_SortOrder r <? item_SortOrder cur)) st))).
      { apply in_map, filter_In. split; [done|]. apply andb_true_iff.
        split; [by apply Z.eqb_eq|by apply Z.ltb_lt]. }
      apply Hall in Hx. unfold flip, io_le in Hx. exact Hx.
    + f_equal. apply swap_updates. exact Hne.
  - left. apply head_merge_sort_None in Eh. apply map_eq_nil in Eh.
    split; [|done]. apply List.Forall_forall. intros r Hr [Hrs Hro].
    assert (In r (List.filter (fun r => (item_SectionID r =? item_SectionID cur) &&
                                        (item_SortOrder r <? item_SortOrder cur)) st)) as Hx.
    { apply filter_In. split; [done|]. apply andb_true_iff.
      split; [by apply Z.eqb_eq|by apply Z.ltb_lt]. }
    rewrite Eh in Hx. destruct Hx.
Qed.

Lemma MoveItemDown_cases (st : list Item) (id : Z) (cur : Item) :
  NoDup (map item_ID st) ->
  find_item st id = Some cur ->
  (Forall (fun r => ~ (item_SectionID r = item_SectionID cur /\
                       item_SortOrder cur < item_SortOrder r)) st /\
   MoveItemDown st id = Ok st) \/
  (exists n, In n st /\ item_SectionID n = item_SectionID cur /\
     item_SortOrder cur < item_SortOrder n /\
     (forall r, In r st -> item_SectionID r = item_SectionID cur ->
        item_SortOrder cur < item_SortOrder r -> item_SortOrder n <= item_SortOrder r) /\
     MoveItemDown st id =
       Ok (map (fun r => if item_ID r =? item_ID n then set_sort_order (item_SortOrder cur) r
                         else if item_ID r =? id then set_sort_order (item_SortOrder n) r
                         else r) st)).
Proof.
  intros Hnd Hf. destruct (find_item_In _ _ _ Hf) as [Hin Hid].
  unfold MoveItemDown. rewrite Hf. unfold query_next_item.
  destruct (head _) as [next|] eqn:Eh.
  - right. apply head_merge_sort in Eh as [HinP Hall]; [|apply _..].
    apply in_map_iff in HinP as [n [<- HnL]].
    apply filter_In in HnL as [Hn Hc].
    apply andb_true_iff in Hc as [Hs Ho]. apply Z.eqb_eq in Hs. apply Z.ltb_lt in Ho.
    assert (Hne : item_ID n <> id).
    { intros E. assert (n = cur) as -> by (apply (NoDup_map_eq item_ID st); auto; lia). lia. }
    exists n. split; [done|]. split; [done|]. split; [done|]. split.
    + intros r Hr Hrs Hro. rewrite List.Forall_forall in Hall.
      assert (Hx : In (to_itemOrder r) (map to_itemOrder
                 (List.filter (fun r => (item_SectionID r =? item_SectionID cur) &&
                                        (item_SortOrder cur <? item_SortOrder r)) st))).
      { apply in_map, filter_In. split; [done|]. apply andb_true_iff.
        split; [by apply Z.eqb_eq|by apply Z.ltb_lt]. }
      apply Hall in Hx. unfold io_le in Hx. exact Hx.
    + f_equal. apply swap_updates. exact Hne.
  - left. apply head_merge_sort_None in Eh. apply map_eq_nil in Eh.
    split; [|done]. apply List.Forall_forall. intros r Hr [Hrs Hro].
    assert (In r (List.filter (fun r => (item_SectionID r =? item_SectionID cur) &&
                                        (item_SortOrder cur <? item_SortOrder r)) st)) as Hx.
    { apply filter_In. split; [done|]. apply andb_true_iff.
      split; [by apply Z.eqb_eq|by apply Z.ltb_lt]. }
    rewrite Eh in Hx. destruct Hx.
Qed.

Lemma section_orders_eq st sec r q :
  NoDup (section_orders st sec) -> In r st -> In q st ->
  item_SectionID r = sec -> item_SectionID q = sec ->
  item_SortOrder r = item_SortOrder q -> r = q.
Proof.
  unfold section_orders. intros Hnd Hr Hq Hrs Hqs Ho.
  apply (NoDup_map_eq item_SortOrder _ r q Hnd); [| |exact Ho];
    apply filter_In; split; auto; apply Z.eqb_eq; auto.
Qed.

Lemma map_swap_ids st q id vq vid :
  map item_ID (map (fun r => if item_ID r =? q then set_sort_order vq r
                             else if item_ID r =? id then set_sort_order vid r else r) st) =
  map item_ID st.
Proof.
  rewrite map_map. apply map_ext. intros r.
  destruct (item_ID r =? q), (item_ID r =? id); reflexivity.
Qed.

(** [MoveItemUp] exchanges the sort order of the item with that of an item
    of the same section holding the nearest smaller sort order, whatever the
    gaps; all other rows are kept; without a smaller order in the section it
    changes nothing. *)
Theorem MoveItemUp_nearest_swap (st : list Item) (id : Z) (cur : Item) :
  NoDup (map item_ID st) ->
  find_item st id = Some cur ->
  (Forall (fun r => ~ (item_SectionID r = item_SectionID cur /\
                       item_SortOrder r < item_SortOrder cur)) st /\
   MoveItemUp st id = Ok st) \/
  (exists p, In p st /\ item_SectionID p = item_SectionID cur /\
     item_SortOrder p < item_SortOrder cur /\
     (forall r, In r st -> item_SectionID r = item_SectionID cur ->
        item_SortOrder r < item_SortOrder cur -> item_SortOrder r <= item_SortOrder p) /\
     MoveItemUp st id =
       Ok (map (fun r => if item_ID r =? item_ID p then set_sort_order (item_SortOrder cur) r
                         else if item_ID r =? id then set_sort_order (item_SortOrder p) r
                         else r) st)).
Proof. apply MoveItemUp_cases. Qed.

Lemma MoveItemUp_nearest_swap_witness :
  NoDup (map item_ID ex_items_gap) /\
  find_item ex_items_gap 2 = Some (mkItem 2 10 false 2) /\
  ((Forall (fun r => ~ (item_SectionID r = 10 /\ item_SortOrder r < 2)) ex_items_gap /\
    MoveItemUp ex_items_gap 2 = Ok ex_items_gap) \/
   (exists p, In p ex_items_gap /\ item_SectionID p = 10 /\ item_SortOrder p < 2 /\
     (forall r, In r ex_items_gap -> item_SectionID r = 10 ->
        item_SortOrder r < 2 -> item_SortOrder r <= item_SortOrder p) /\
     MoveItemUp ex_items_gap 2 =
       Ok (map (fun r => if item_ID r =? item_ID p then set_sort_order 2 r
                         else if item_ID r =? 2 then set_sort_order (item_SortOrder p) r
                         else r) ex_items_gap))).
Proof.
  assert (H1 : NoDup (map item_ID ex_items_gap))
    by (apply (bool_decide_unpack _); vm_compute; exact I).
  assert (H2 : find_item ex_items_gap 2 = Some (mkItem 2 10 false 2)) by reflexivity.
  split; [exact H1|]. split; [exact H2|].
  exact (MoveItemUp_nearest_swap ex_items_gap 2 (mkItem 2 10 false 2) H1 H2).
Defined.

(** [MoveItemDown] exchanges the sort order of the item with that of an item
    of the same section holding the nearest larger sort order; without a
    larger order in the section it changes nothing. *)
Theorem MoveItemDown_nearest_swap (st : list Item) (id : Z) (cur : Item) :
  NoDup (map item_ID st) ->
  find_item st id = Some cur ->
  (Forall (fun r => ~ (item_SectionID r = item_SectionID cur /\
                       item_SortOrder cur < item_SortOrder r)) st /\
   MoveItemDown st id = Ok st) \/
  (exists n, In n st /\ item_SectionID n = item_SectionID cur /\
     item_SortOrder cur < item_SortOrder n /\
     (forall r, In r st -> item_SectionID r = item_SectionID cur ->
        item_SortOrder cur < item_SortOrder r -> item_SortOrder n <= item_SortOrder r) /\
     MoveItemDown st id =
       Ok (map (fun r => if item_ID r =? item_ID n then set_sort_order (item_SortOrder cur) r
                         else if item_ID r =? id then set_sort_order (item_SortOrder n) r
                         else r) st)).
Proof. apply MoveItemDown_cases. Qed.

Lemma MoveItemDown_nearest_swap_witness :
  NoDup (map item_ID ex_items_gap) /\
  find_item ex_items_gap 1 = Some (mkItem 1 10 false 0) /\
  ((Forall (fun r => ~ (item_SectionID r = 10 /\ 0 < item_SortOrder r)) ex_items_gap /\
    MoveItemDown ex_items_gap 1 = Ok ex_items_gap) \/
   (exists n, In n ex_items_gap /\ item_SectionID n = 10 /\ 0 < item_SortOrder n /\
     (forall r, In r ex_items_gap -> item_SectionID r = 10 ->
        0 < item_SortOrder r -> item_SortOrder n <= item_SortOrder r) /\
     MoveItemDown ex_items_gap 1 =
       Ok (map (fun r => if item_ID r =? item_ID n then set_sort_order 0 r
                         else if item_ID r =? 1 then set_sort_order (item_SortOrder n) r
                         else r) ex_items_gap))).
Proof.
  assert (H1 : NoDup (map item_ID ex_items_gap))
    by (apply (bool_decide_unpack _); vm_compute; exact I).
  assert (H2 : find_item ex_items_gap 1 = Some (mkItem 1 10 false 0)) by reflexivity.
  split; [exact H1|]. split; [exact H2|].
  exact (MoveItemDown_nearest_swap ex_items_gap 1 (mkItem 1 10 false 0) H1 H2).
Defined.

(** When the sort orders within the section are distinct and the item has a
    predecessor, [MoveItemDown] undoes [MoveItemUp]. *)
Theorem MoveItemUp_Down_roundtrip (st : list Item) (id : Z) (cur p : Item) :
  NoDup (map item_ID st) ->
  NoDup (section_orders st (item_SectionID cur)) ->
  find_item st id = Some cur ->
  In p st -> item_SectionID p = item_SectionID cur ->
  item_SortOrder p < item_SortOrder cur ->
  exists st1, MoveItemUp st id = Ok st1 /\ MoveItemDown st1 id = Ok st.
Proof.
  intros Hnd Hso Hf Hp Hps Hpo. destruct (find_item_In _ _ _ Hf) as [Hin Hid].
  destruct (MoveItemUp_cases st id cur Hnd Hf)
    as [[Hnone _]|[q [Hq [Hqs [Hqo [Hmax Hup]]]]]].
  { exfalso. rewrite List.Forall_forall in Hnone. exact (Hnone p Hp (conj Hps Hpo)). }
  assert (Hqid : item_ID q <> id).
  { intros E. assert (q = cur) as -> by (apply (NoDup_map_eq item_ID st); auto; lia). lia. }
  set (f := fun r => if item_ID r =? item_ID q then set_sort_order (item_SortOrder cur) r
                     else if item_ID r =? id then set_sort_order (item_SortOrder q) r
                     else r) in Hup.
  exists (map f st). split; [exact Hup|].
  assert (Hfid : forall r, item_ID (f r) = item_ID r).
  { intros r. unfold f. destruct (item_ID r =? item_ID q), (item_ID r =? id); reflexivity. }
  assert (Hfcur : f cur = set_sort_order (item_SortOrder q) cur).
  { unfold f. rewrite Hid. replace (id =? item_ID q) with false
      by (symmetry; apply Z.eqb_neq; auto). by rewrite Z.eqb_refl. }
  assert (Hfq : f q = set_sort_order (item_SortOrder cur) q).
  { unfold f. by rewrite Z.eqb_refl. }
  assert (Hfo : forall r, item_ID r <> item_ID q -> item_ID r <> id -> f r = r).
  { intros r H1 H2. unfold f. apply Z.eqb_neq in H1, H2. by rewrite H1, H2. }
  assert (Hf1 : find_item (map f st) id = Some (set_sort_order (item_SortOrder q) cur)).
  { rewrite <-Hfcur. by apply find_item_map. }
  assert (Hnd1 : NoDup (map item_ID (map f st))) by (unfold f; by rewrite map_swap_ids).
  destruct (MoveItemDown_cases (map f st) id _ Hnd1 Hf1)
    as [[Hnone _]|[n [Hn [Hns [Hno [Hmin Hdown]]]]]]; cbn in *.
  { exfalso. rewrite List.Forall_forall in Hnone.
    apply (Hnone (f q)); [by apply in_map|]. rewrite Hfq. cbn. lia. }
  rewrite Hdown. f_equal.
  apply in_map_iff in Hn as [r [<- Hr]].
  assert (Hrq : item_ID r = item_ID q).
  { destruct (Z.eqb_spec (item_ID r) (item_ID q)) as [E|E]; [done|exfalso].
    destruct (Z.eqb_spec (item_ID r) id) as [E'|E'].
    - assert (r = cur) as -> by (apply (NoDup_map_eq item_ID st); auto; lia).
      rewrite Hfcur in Hno. cbn in Hno. lia.
    - rewrite (Hfo r E E') in Hns, Hno, Hmin.
      assert (Hle : item_SortOrder r <= item_SortOrder cur).
      { specialize (Hmin (f q) (in_map _ _ _ Hq)).
        rewrite Hfq in Hmin. cbn in Hmin. lia. }
      destruct (Z.lt_ge_cases (item_SortOrder r) (item_SortOrder cur)) as [Hlt|Hge].
      + specialize (Hmax r Hr Hns Hlt). lia.
      + assert (r = cur) as -> by (apply (section_orders_eq st (item_SectionID cur)); auto; lia).
        lia. }
  assert (r = q) as -> by (apply (NoDup_map_eq item_ID st); auto).
  rewrite Hfq. cbn [item_ID item_SortOrder set_sort_order].
  rewrite map_map. rewrite <-(map_id st) at 2. apply map_ext_in. intros x Hx.
  destruct (Z.eqb_spec (item_ID x) (item_ID q)) as [E|E].
  - assert (x = q) as -> by (apply (NoDup_map_eq item_ID st); auto).
    rewrite Hfq. cbn. rewrite Z.eqb_refl. rewrite set_sort_order_twice.
    apply set_sort_order_self.
  - destruct (Z.eqb_spec (item_ID x) id) as [E'|E'].
    + assert (x = cur) as -> by (apply (NoDup_map_eq item_ID st); auto; lia).
      rewrite Hfcur. cbn. rewrite Hid, Z.eqb_refl.
      replace (id =? item_ID q) with false by (symmetry; apply Z.eqb_neq; auto).
      rewrite set_sort_order_twice. apply set_sort_order_self.
    + rewrite (Hfo x E E'). apply Z.eqb_neq in E, E'. by rewrite E, E'.
Qed.

Lemma MoveItemUp_Down_roundtrip_witness :
  exists st1, MoveItemUp ex_items_gap 2 = Ok st1 /\ MoveItemDown st1 2 = Ok ex_items_gap.
Proof.
  apply (MoveItemUp_Down_roundtrip ex_items_gap 2 (mkItem 2 10 false 2) (mkItem 1 10 false 0)).
  - apply (bool_decide_unpack _). vm_compute. exact I.
  - apply (bool_decide_unpack _). vm_compute. exact I.
  - reflexivity.
  - simpl. auto.
  - reflexivity.
  - simpl. lia.
Defined.

(** ** Appending at the end of a section *)

Lemma coalesce_max_ge l x : In x l -> x <= coalesce_max l.
Proof.
  unfold coalesce_max. destruct l as [|y l]; [done|]. simpl sql_max. cbv iota beta.
  intros Hx. destruct (sql_max_spec y l) as [_ Hall].
  rewrite List.Forall_forall in Hall. by apply Hall.
Qed.





(** [CreateList] and [CreateItem] append one row with a fresh id, placed
    after every existing list, respectively after every item of its section;
    a new list is inactive. *)
Theorem Create_appends (ls : list DbList) (name : string) (st : list Item)
    (sec : Z) (completed0 : bool) :
  (exists l, CreateList ls name = Ok (ls ++ [l], l) /\
     ~ In (list_ID l) (map list_ID ls) /\ list_IsActive l = false /\
     (forall l', In l' ls -> list_SortOrder l' < list_SortOrder l)) /\
  (exists it, CreateItem st sec completed0 = Ok (st ++ [it], it) /\
     ~ In (item_ID it) (map item_ID st) /\ item_SectionID it = sec /\
     (forall r, In r st -> item_SectionID r = sec -> item_SortOrder r < item_SortOrder it)).
Proof.
  split.
  - eexists. split; [reflexivity|]. cbn. split; [|split; [done|]].
    + intros Hin. apply coalesce_max_ge in Hin. lia.
    + intros l' Hl'. apply (in_map list_SortOrder), coalesce_max_ge in Hl'. lia.
  - eexists. split; [reflexivity|]. cbn. split; [|split; [done|]].
    + intros Hin. apply coalesce_max_ge in Hin. unfold next_item_id in Hin. lia.
    + intros r Hr Hrs. assert (item_SortOrder r <= coalesce_max (section_orders st sec));
        [|lia].
      apply coalesce_max_ge. unfold section_orders. apply in_map, filter_In.
      split; [done|]. by apply Z.eqb_eq.
Qed.

(** ** Moving lists when the orders are dense *)

Lemma NoDup_map_inj {A B} (f : A -> B) (l : list A) :
  (forall x y, f x = f y -> x = y) -> NoDup l -> NoDup (map f l).
Proof.
  intros Hf. induction l as [|a l IH]; simpl; [constructor|].
  rewrite !NoDup_cons. intros [Ha Hl]. split; [|by apply IH].
  rewrite list_elem_of_In. intros Hin. apply in_map_iff in Hin as [x [Hx Hxl]].
  apply Hf in Hx. subst. apply Ha. by apply list_elem_of_In.
Qed.

Lemma in_range x n : In x (map Z.of_nat (seq 0 n)) <-> 0 <= x < Z.of_nat n.
Proof.
  rewrite in_map_iff. split.
  - intros [m [<- Hm]]. apply in_seq in Hm. lia.
  - intros Hx. exists (Z.to_nat x). split; [lia|]. apply in_seq. lia.
Qed.

Lemma NoDup_range n : NoDup (map Z.of_nat (seq 0 n)).
Proof. apply NoDup_map_inj; [lia|]. apply NoDup_seq. Qed.

Lemma swap_val_invol a b x : swap_val a b (swap_val a b x) = x.
Proof.
  unfold swap_val.
  destruct (Z.eqb_spec x a), (Z.eqb_spec x b); subst;
    repeat (rewrite ?Z.eqb_refl || match goal with
      | |- context [?u =? ?v] => destruct (Z.eqb_spec u v)
      end); lia.
Qed.

(** Exchanging two values of the range [0..n-1] keeps a permutation of it. *)
Lemma swap_range_perm a b n (O : list Z) :
  0 <= a < Z.of_nat n -> 0 <= b < Z.of_nat n ->
  O ≡ₚ map Z.of_nat (seq 0 n) -> map (swap_val a b) O ≡ₚ map Z.of_nat (seq 0 n).
Proof.
  intros Ha Hb HO. rewrite HO.
  apply NoDup_Permutation; [|apply NoDup_range|].
  - apply NoDup_map_inj; [|apply NoDup_range].
    intros x y Hxy. rewrite <-(swap_val_invol a b x), <-(swap_val_invol a b y). by f_equal.
  - intros x. rewrite !list_elem_of_In, in_map_iff, in_range. split.
    + intros [y [<- Hy]]. apply in_range in Hy. unfold swap_val.
      destruct (y =? a), (y =? b); lia.
    + intros Hx. exists (swap_val a b x). rewrite swap_val_invol. split; [done|].
      apply in_range. unfold swap_val. destruct (x =? a), (x =? b); lia.
Qed.

Lemma find_list_In ls id cur : find_list ls id = Some cur -> In cur ls /\ list_ID cur = id.
Proof.
  unfold find_list. intros H. split; [eapply List.find_some; eauto|].
  apply List.find_some in H. destruct H as [_ H]. by apply Z.eqb_eq.
Qed.

(** With dense orders, the list holding a given order is unique. *)
Lemma dense_order_eq ls l l' :
  map list_SortOrder ls ≡ₚ map Z.of_nat (seq 0 (length ls)) ->
  In l ls -> In l' ls -> list_SortOrder l = list_SortOrder l' -> l = l'.
Proof.
  intros Hd. apply NoDup_map_eq. rewrite Hd. apply NoDup_range.
Qed.

Lemma dense_order_range ls l :
  map list_SortOrder ls ≡ₚ map Z.of_nat (seq 0 (length ls)) ->
  In l ls -> 0 <= list_SortOrder l < Z.of_nat (length ls).
Proof.
  intros Hd Hl. apply in_range. apply list_elem_of_In. rewrite <-Hd.
  apply list_elem_of_In, in_map, Hl.
Qed.

(** When the list orders are exactly [0..n-1], [MoveListUp] exchanges the
    orders [k-1] and [k] of the list at [k] and its predecessor (nothing at
    [k = 0]), and the orders stay exactly [0..n-1]. *)
Theorem MoveListUp_dense (ls : list DbList) (id : Z) (cur : DbList) :
  NoDup (map list_ID ls) ->
  map list_SortOrder ls ≡ₚ map Z.of_nat (seq 0 (length ls)) ->
  find_list ls id = Some cur ->
  exists ls', MoveListUp ls id = Ok ls' /\
    map list_ID ls' = map list_ID ls /\
    ((list_SortOrder cur = 0 /\ ls' = ls) \/
     (0 < list_SortOrder cur /\
      map list_SortOrder ls' =
        map (swap_val (list_SortOrder cur - 1) (list_SortOrder cur)) (map list_SortOrder ls))) /\
    map list_SortOrder ls' ≡ₚ map Z.of_nat (seq 0 (length ls')).
Proof.
  intros Hnd Hd Hf. destruct (find_list_In _ _ _ Hf) as [Hin Hid].
  pose proof (dense_order_range ls cur Hd Hin) as Hk.
  unfold MoveListUp. rewrite Hf.
  destruct (Z.eqb_spec (list_SortOrder cur) 0) as [E0|E0].
  { exists ls. split; [done|]. split; [done|]. split; [by left|exact Hd]. }
  eexists. split; [reflexivity|].
  assert (Hord : map list_SortOrder
     (map (fun l => if list_ID l =? id
                    then set_list_sort_order (list_SortOrder cur - 1) l else l)
        (map (fun l => if list_SortOrder l =? list_SortOrder cur - 1
                       then set_list_sort_order (list_SortOrder l + 1) l else l) ls)) =
     map (swap_val (list_SortOrder cur - 1) (list_SortOrder cur)) (map list_SortOrder ls)).
  { rewrite !map_map. apply map_ext_in. intros l Hl. unfold swap_val.
    destruct (Z.eqb_spec (list_ID l) id) as [E|E].
    - assert (l = cur) as -> by (apply (NoDup_map_eq list_ID ls); auto; lia).
      replace (list_SortOrder cur =? list_SortOrder cur - 1) with false
        by (symmetry; apply Z.eqb_neq; lia).
      rewrite Hid, Z.eqb_refl. cbn.
      replace (list_SortOrder cur =? list_SortOrder cur - 1) with false
        by (symmetry; apply Z.eqb_neq; lia).
      by rewrite Z.eqb_refl.
    - assert (Hne : list_SortOrder l <> list_SortOrder cur).
      { intros Ho. apply E. rewrite <-Hid. f_equal. by apply (dense_order_eq ls). }
      destruct (Z.eqb_spec (list_SortOrder l) (list_SortOrder cur - 1)) as [E1|E1]; cbn.
      + apply Z.eqb_neq in E. rewrite E. cbn. lia.
      + apply Z.eqb_neq in E. rewrite E.
        apply Z.eqb_neq in Hne. by rewrite Hne. }
  split.
  { rewrite !map_map. apply map_ext. intros l.
    destruct (list_SortOrder l =? _), (list_ID _ =? id); reflexivity. }
  split; [right; split; [lia|exact Hord]|].
  rewrite Hord, !length_map. apply swap_range_perm; [lia|lia|exact Hd].
Qed.

Lemma MoveListUp_dense_witness :
  exists ls', MoveListUp ex_lists_shifted_dense 2 = Ok ls' /\
    map list_ID ls' = map list_ID ex_lists_shifted_dense /\
    ((1 = 0 /\ ls' = ex_lists_shifted_dense) \/
     (0 < 1 /\ map list_SortOrder ls' =
                 map (swap_val (1 - 1) 1) (map list_SortOrder ex_lists_shifted_dense))) /\
    map list_SortOrder ls' ≡ₚ map Z.of_nat (seq 0 (length ls')).
Proof.
  apply (MoveListUp_dense ex_lists_shifted_dense 2 (mkList 2 "B" 1 false 0)).
  - apply (bool_decide_unpack _). vm_compute. exact I.
  - reflexivity.
  - reflexivity.
Defined.

Lemma dense_sql_max ls :
  map list_SortOrder ls ≡ₚ map Z.of_nat (seq 0 (length ls)) -> ls <> [] ->
  sql_max (map list_SortOrder ls) = Some (Z.of_nat (length ls) - 1).
Proof.
  intros Hd Hne.
  assert (Hr : forall x, In x (map list_SortOrder ls) <-> 0 <= x < Z.of_nat (length ls)).
  { intros x. rewrite <-in_range, <-!list_elem_of_In. by rewrite Hd. }
  assert (Hlen : (0 < length ls)%nat) by (destruct ls; [done|simpl; lia]).
  destruct (map list_SortOrder ls) as [|y l] eqn:E; [by destruct ls|].
  simpl. f_equal. destruct (sql_max_spec y l) as [Hm Hall].
  rewrite List.Forall_forall in Hall.
  apply Hr in Hm. specialize (Hall (Z.of_nat (length ls) - 1)).
  assert (Z.of_nat (length ls) - 1 <= fold_left Z.max l y); [|lia].
  apply Hall, Hr. lia.
Qed.

(** When the list orders are exactly [0..n-1], [MoveListDown] exchanges the
    orders [k] and [k+1] of the list at [k] and its successor (nothing at
    [k = n-1]), and the orders stay exactly [0..n-1]. *)
Theorem MoveListDown_dense (ls : list DbList) (id : Z) (cur : DbList) :
  NoDup (map list_ID ls) ->
  map list_SortOrder ls ≡ₚ map Z.of_nat (seq 0 (length ls)) ->
  find_list ls id = Some cur ->
  exists ls', MoveListDown ls id = Ok ls' /\
    map list_ID ls' = map list_ID ls /\
    ((list_SortOrder cur = Z.of_nat (length ls) - 1 /\ ls' = ls) \/
     (list_SortOrder cur < Z.of_nat (length ls) - 1 /\
      map list_SortOrder ls' =
        map (swap_val (list_SortOrder cur) (list_SortOrder cur + 1)) (map list_SortOrder ls))) /\
    map list_SortOrder ls' ≡ₚ map Z.of_nat (seq 0 (length ls')).
Proof.
  intros Hnd Hd Hf. destruct (find_list_In _ _ _ Hf) as [Hin Hid].
  pose proof (dense_order_range ls cur Hd Hin) as Hk.
  assert (Hne : ls <> []) by (intros ->; destruct Hin).
  unfold MoveListDown. rewrite Hf, (dense_sql_max ls Hd Hne).
  destruct (Z.leb_spec (Z.of_nat (length ls) - 1) (list_SortOrder cur)) as [E0|E0].
  { exists ls. split; [done|]. split; [done|]. split; [left; split; [lia|done]|exact Hd]. }
  eexists. split; [reflexivity|].
  assert (Hord : map list_SortOrder
     (map (fun l => if list_ID l =? id
                    then set_list_sort_order (list_SortOrder cur + 1) l else l)
        (map (fun l => if list_SortOrder l =? list_SortOrder cur + 1
                       then set_list_sort_order (list_SortOrder l - 1) l else l) ls)) =
     map (swap_val (list_SortOrder cur) (list_SortOrder cur + 1)) (map list_SortOrder ls)).
  { rewrite !map_map. apply map_ext_in. intros l Hl. unfold swap_val.
    destruct (Z.eqb_spec (list_ID l) id) as [E|E].
    - assert (l = cur) as -> by (apply (NoDup_map_eq list_ID ls); auto; lia).
      replace (list_SortOrder cur =? list_SortOrder cur + 1) with false
        by (symmetry; apply Z.eqb_neq; lia).
      rewrite Hid, Z.eqb_refl. cbn. by rewrite Z.eqb_refl.
    - assert (Hne' : list_SortOrder l <> list_SortOrder cur).
      { intros Ho. apply E. rewrite <-Hid. f_equal. by apply (dense_order_eq ls). }
      apply Z.eqb_neq in Hne'. rewrite Hne'.
      destruct (Z.eqb_spec (list_SortOrder l) (list_SortOrder cur + 1)) as [E1|E1]; cbn.
      + apply Z.eqb_neq in E. rewrite E. cbn. lia.
      + apply Z.eqb_neq in E. by rewrite E. }
  split.
  { rewrite !map_map. apply map_ext. intros l.
    destruct (list_SortOrder l =? _), (list_ID _ =? id); reflexivity. }
  split; [right; split; [lia|exact Hord]|].
  rewrite Hord, !length_map. apply swap_range_perm; [lia|lia|exact Hd].
Qed.

Lemma MoveListDown_dense_witness :
  exists ls', MoveListDown ex_lists_shifted_dense 2 = Ok ls' /\
    map list_ID ls' = map list_ID ex_lists_shifted_dense /\
    ((1 = Z.of_nat (length ex_lists_shifted_dense) - 1 /\ ls' = ex_lists_shifted_dense) \/
     (1 < Z.of_nat (length ex_lists_shifted_dense) - 1 /\
      map list_SortOrder ls' =
        map (swap_val 1 (1 + 1)) (map list_SortOrder ex_lists_shifted_dense))) /\
    map list_SortOrder ls' ≡ₚ map Z.of_nat (seq 0 (length ls')).
Proof.
  apply (MoveListDown_dense ex_lists_shifted_dense 2 (mkList 2 "B" 1 false 0)).
  - apply (bool_decide_unpack _). vm_compute. exact I.
  - reflexivity.
  - reflexivity.
Defined.

(** ** Metric properties of [levenshteinDistance] *)

Section LevenshteinMetric.
Local Open Scope nat_scope.

Lemma lev_cost_sym x y : lev_cost x y = lev_cost y x.
Proof.
  unfold lev_cost. destruct (ascii_dec x y), (ascii_dec y x); congruence.
Qed.

Lemma align_sym a b n : align a b n -> align b a n.
Proof.
  induction 1 as [|x a b n H IH|y a b n H IH|x y a b n H IH].
  - apply al_nil.
  - by apply al_ins.
  - by apply al_del.
  - rewrite lev_cost_sym. by apply al_sub.
Qed.

Lemma lev_spec_sym a b : lev_spec a b = lev_spec b a.
Proof.
  pose proof (lev_spec_min _ _ _ (align_sym _ _ _ (lev_spec_align a b))).
  pose proof (lev_spec_min _ _ _ (align_sym _ _ _ (lev_spec_align b a))).
  lia.
Qed.

Lemma align_zero a b : align a b 0 -> a = b.
Proof.
  remember 0 as z eqn:Hz. intros H. revert Hz.
  induction H as [|x a b n H IH|y a b n H IH|x y a b n H IH]; intros Hz.
  - reflexivity.
  - discriminate.
  - discriminate.
  - unfold lev_cost in Hz. destruct (ascii_dec x y) as [<-|]; [|lia].
    f_equal. apply IH. lia.
Qed.



Lemma edits_trans n m a b c : edits n a b -> edits m b c -> edits (n + m) a c.
Proof.
  induction 1 as [a|n a b b' Hs H IH]; intros Hc; [exact Hc|].
  simpl. eapply edits_step; [exact Hs|]. by apply IH.
Qed.


Lemma list_ascii_of_string_inj s t :
  list_ascii_of_string s = list_ascii_of_string t -> s = t.
Proof.
  intros H. rewrite <-(string_of_list_ascii_of_string s),
    <-(string_of_list_ascii_of_string t), H. reflexivity.
Qed.

End LevenshteinMetric.

(** [levenshteinDistance] is symmetric. *)
Theorem levenshteinDistance_sym (s1 s2 : string) :
  levenshteinDistance s1 s2 = levenshteinDistance s2 s1.
Proof. rewrite !levenshteinDistance_spec. apply lev_spec_sym. Qed.

(** [levenshteinDistance s1 s2] is 0 exactly when the two strings are equal
    after [strings.ToLower]. *)
Theorem levenshteinDistance_zero_iff (s1 s2 : string) :
  levenshteinDistance s1 s2 = 0%nat <-> ToLower s1 = ToLower s2.
Proof.
  rewrite levenshteinDistance_spec. split.
  - intros H. apply list_ascii_of_string_inj, align_zero.
    rewrite <-H. apply lev_spec_align.
  - intros ->. pose proof (lev_spec_min _ _ _ (align_refl (list_ascii_of_string (ToLower s2)))).
    lia.
Qed.


(** [levenshteinDistance] satisfies the triangle inequality. *)
Theorem levenshteinDistance_triangle (s1 s2 s3 : string) :
  (levenshteinDistance s1 s3 <= levenshteinDistance s1 s2 + levenshteinDistance s2 s3)%nat.
Proof.
  rewrite !levenshteinDistance_spec. apply edits_lev, (edits_trans _ _ _ (list_ascii_of_string (ToLower s2))); apply align_edits, lev_spec_align.
Qed.

(** ** Score tiers of [scoreSuggestion] *)

Lemma prefix_refl s : String.prefix s s = true.
Proof.
  induction s as [|c s IH]; [done|]. cbn. destruct (ascii_dec c c); [done|congruence].
Qed.

Lemma Contains_prefix s sub : String.prefix sub s = true -> Contains s sub = true.
Proof. intros H. destruct s; cbn [Contains]; by rewrite H. Qed.

Lemma fuzzy_words_le ws q m : fuzzy_words ws q m <= 80.
Proof.
  induction ws as [|w ws IH]; cbn [fuzzy_words]; [lia|].
  destruct (_ <=? m)%nat; lia.
Qed.

Lemma scoreSuggestion_tiers_aux name query :
  scoreSuggestion name query <= 1000 /\
  (scoreSuggestion name query = 1000 <-> ToLower name = ToLower query) /\
  (100 < scoreSuggestion name query <->
     Contains (ToLower name) (ToLower query) = true) /\
  ((String.length query < 3)%nat -> Contains (ToLower name) (ToLower query) = false ->
     scoreSuggestion name query = 0).
Proof.
  unfold scoreSuggestion.
  destruct (String.eqb_spec (ToLower name) (ToLower query)) as [E|E].
  { rewrite E, (Contains_prefix _ _ (prefix_refl _)). split; [lia|].
    split; [tauto|]. split; [split; [done|lia]|]. intros _ H; discriminate. }
  unfold HasPrefix.
  destruct (String.prefix (ToLower query) (ToLower name)) eqn:P.
  { rewrite (Contains_prefix _ _ P). split; [lia|]. split; [split; [lia|tauto]|].
    split; [split; [done|lia]|]. intros _ H; discriminate. }
  destruct (Contains (ToLower name) (ToLower query)).
  { split; [lia|]. split; [split; [lia|tauto]|]. split; [split; [done|lia]|].
    intros _ H; discriminate. }
  assert (Hf : forall ws m, fuzzy_words ws (ToLower query) m <= 80)
    by (intros; apply fuzzy_words_le).
  destruct (Nat.leb_spec 3 (String.length query)).
  - destruct (_ <=? _)%nat; [|specialize (Hf (Fields (ToLower name)) (String.length query / 2)%nat)].
    + split; [lia|]. split; [split; [lia|tauto]|]. split; [split; [lia|discriminate]|].
      intros; lia.
    + split; [lia|]. split; [split; [lia|tauto]|]. split; [split; [lia|discriminate]|].
      intros; lia.
  - split; [lia|]. split; [split; [lia|tauto]|]. split; [split; [lia|discriminate]|].
    done.
Qed.

(** [scoreSuggestion] never exceeds 1000; it is 1000 exactly for a
    case-insensitive exact match and above 100 exactly when the lower-cased
    query occurs in the lower-cased name; a query shorter than 3 bytes that
    does not occur in the name scores 0. *)
Theorem scoreSuggestion_tiers (name query : string) :
  scoreSuggestion name query <= 1000 /\
  (scoreSuggestion name query = 1000 <-> ToLower name = ToLower query) /\
  (100 < scoreSuggestion name query <->
     Contains (ToLower name) (ToLower query) = true) /\
  ((String.length query < 3)%nat -> Contains (ToLower name) (ToLower query) = false ->
     scoreSuggestion name query = 0).
Proof. apply scoreSuggestion_tiers_aux. Qed.

(** ** Bounds of the suggestion results *)

Lemma score_rows_fst rows query :
  map fst (score_rows rows query) =
  List.filter (fun s => 0 <? scoreSuggestion (s_Name s) query) rows.
Proof.
  induction rows as [|r rows IH]; [done|]. cbn [score_rows List.filter].
  destruct (0 <? scoreSuggestion (s_Name r) query); [|exact IH].
  cbn [map]. by rewrite IH.
Qed.

Lemma list_filter_submseteq {A} (p : A -> bool) (l : list A) : List.filter p l ⊆+ l.
Proof.
  induction l as [|x l IH]; cbn [List.filter]; [done|].
  destruct (p x); [by apply submseteq_skip|by apply submseteq_cons].
Qed.

Lemma GetItemSuggestions_sub history query limit :
  GetItemSuggestions history query limit ⊆+ take 200 history /\
  (length (GetItemSuggestions history query limit) <=
     Z.to_nat (if limit <=? 0 then 10 else limit)%Z)%nat /\
  Forall (fun s => 0 < scoreSuggestion (s_Name s) query)
    (GetItemSuggestions history query limit).
Proof.
  unfold GetItemSuggestions.
  set (L := score_rows (take 200 history) query).
  set (k := Z.to_nat (if limit <=? 0 then 10 else limit)).
  assert (HP : map fst (merge_sort score_rank L) ≡ₚ map fst L)
    by (apply Permutation_map, merge_sort_Permutation).
  assert (Hsub : map fst (take k (merge_sort score_rank L)) ⊆+ map fst L).
  { rewrite <-firstn_map. etransitivity; [apply sublist_submseteq, sublist_take|].
    by rewrite HP. }
  unfold L in Hsub. rewrite score_rows_fst in Hsub. fold L in Hsub.
  split; [etransitivity; [exact Hsub|apply list_filter_submseteq]|].
  split.
  { rewrite length_map. apply firstn_le_length. }
  apply List.Forall_forall. intros s Hs.
  apply list_elem_of_In in Hs. apply (elem_of_submseteq _ _ _ Hs) in Hsub.
  apply list_elem_of_In, filter_In in Hsub. lia.
Qed.

(** The handler [GetSuggestions] returns rows of the history only, each at
    most as often as it occurs there, and no more of them than the limit
    (10 by default for a search, 100 for the empty query); for a non-empty
    query they come from the first 200 rows and each has a positive base
    score. *)
Theorem GetSuggestions_bounds (history : list ItemSuggestion) (query : string) (limit : Z) :
  GetSuggestions history query limit ⊆+ history /\
  (length (GetSuggestions history query limit) <=
     Z.to_nat (if limit <=? 0 then (if String.eqb query "" then 100 else 10) else limit)%Z)%nat /\
  (query <> EmptyString ->
     GetSuggestions history query limit ⊆+ take 200 history /\
     Forall (fun s => 0 < scoreSuggestion (s_Name s) query)
       (GetSuggestions history query limit)).
Proof.
  unfold GetSuggestions.
  destruct (String.eqb_spec query "") as [->|Hq].
  - unfold GetAllItemSuggestions. split; [apply sublist_submseteq, sublist_take|].
    split; [apply firstn_le_length|]. done.
  - destruct (GetItemSuggestions_sub history query limit) as (H1 & H2 & H3).
    split; [etransitivity; [exact H1|apply sublist_submseteq, sublist_take]|].
    split; [exact H2|]. intros _. split; assumption.
Qed.

(** ** Upserts of the item history *)

Section HistoryUpsert.
Variable name : string.
Variable g : HistoryRow -> HistoryRow.
Hypothesis g_name : forall h, h_Name (g h) = h_Name h.
Hypothesis g_usage : forall h, h_UsageCount (g h) = h_UsageCount h + 1.

Let upd (h : HistoryRow) : HistoryRow := if same_name (h_Name h) name then g h else h.

Lemma same_name_key h : same_name (h_Name h) name = String.eqb (history_key h) (ToLower name).
Proof. reflexivity. Qed.

Lemma upd_keys hs : map history_key (map upd hs) = map history_key hs.
Proof.
  rewrite map_map. apply map_ext. intros h. unfold upd, history_key.
  destruct (same_name _ _); [by rewrite g_name|done].
Qed.

Lemma upd_none hs :
  existsb (fun h => same_name (h_Name h) name) hs = false -> map upd hs = hs.
Proof.
  induction hs as [|h hs IH]; [done|]. cbn [existsb map].
  intros [E1 E2]%orb_false_iff. unfold upd at 1. rewrite E1. f_equal. by apply IH.
Qed.

Lemma upd_total hs :
  NoDup (map history_key hs) ->
  existsb (fun h => same_name (h_Name h) name) hs = true ->
  total_usage (map upd hs) = total_usage hs + 1.
Proof.
  induction hs as [|h hs IH]; [discriminate|]. cbn [existsb map].
  intros Hnd%NoDup_cons. destruct Hnd as [Hnin Hnd].
  unfold total_usage in *. cbn [map fold_right].
  unfold upd at 1. destruct (same_name (h_Name h) name) eqn:E; cbn [orb].
  - intros _. rewrite g_usage, upd_none; [lia|].
    apply not_true_iff_false. intros Hex. apply existsb_exists in Hex as (h' & Hin & E').
    apply Hnin, list_elem_of_In. rewrite same_name_key in E, E'.
    apply String.eqb_eq in E, E'. apply in_map_iff. exists h'. split; [congruence|done].
  - intros Hex. rewrite (IH Hnd Hex). lia.
Qed.

Lemma upd_filter hs :
  List.filter (fun h => negb (same_name (h_Name h) name)) (map upd hs) =
  List.filter (fun h => negb (same_name (h_Name h) name)) hs.
Proof.
  induction hs as [|h hs IH]; [done|]. cbn [map List.filter].
  assert (Hu : negb (same_name (h_Name (upd h)) name) = negb (same_name (h_Name h) name)).
  { unfold upd; cbv beta. destruct (same_name (h_Name h) name) eqn:E; [by rewrite g_name, E|by rewrite E]. }
  rewrite Hu, IH. destruct (same_name (h_Name h) name) eqn:E; [done|].
  cbn [negb]. f_equal. unfold upd. by rewrite E.
Qed.

Lemma upd_found hs :
  existsb (fun h => same_name (h_Name h) name) hs = true ->
  exists h, In h hs /\ same_name (h_Name h) name = true /\ In (g h) (map upd hs).
Proof.
  intros Hex. apply existsb_exists in Hex as (h & Hin & E).
  exists h. split; [done|]. split; [done|]. apply in_map_iff. exists h.
  unfold upd. by rewrite E.
Qed.

End HistoryUpsert.

Lemma history_insert_keys hs name row :
  NoDup (map history_key hs) ->
  existsb (fun h => same_name (h_Name h) name) hs = false ->
  h_Name row = name ->
  NoDup (map history_key (hs ++ [row])).
Proof.
  intros Hnd Hex Hr. rewrite map_app. apply NoDup_app. split; [done|].
  split; [|apply NoDup_singleton]. intros k Hk Hk'.
  apply list_elem_of_singleton in Hk'. subst k.
  apply list_elem_of_In, in_map_iff in Hk as (h & Hk & Hin).
  assert (Hs : same_name (h_Name h) name = true).
  { unfold same_name. apply String.eqb_eq. unfold history_key in Hk. congruence. }
  assert (Ht : existsb (fun h => same_name (h_Name h) name) hs = true)
    by (apply existsb_exists; exists h; done).
  congruence.
Qed.

Lemma total_usage_app hs hs' : total_usage (hs ++ hs') = total_usage hs + total_usage hs'.
Proof.
  unfold total_usage. rewrite map_app, fold_right_app.
  induction hs as [|h hs IH]; cbn; [|rewrite IH]; lia.
Qed.

Lemma history_insert_filter hs name row :
  h_Name row = name ->
  List.filter (fun h => negb (same_name (h_Name h) name)) (hs ++ [row]) =
  List.filter (fun h => negb (same_name (h_Name h) name)) hs.
Proof.
  intros <-. rewrite List.filter_app. cbn. unfold same_name. rewrite String.eqb_refl.
  apply app_nil_r.
Qed.

Ltac history_upsert_case name hs Hnd Hex g Hk Ht Hf Hfd :=
  let Hgn := fresh in let Hgu := fresh in
  assert (Hgn : forall h, h_Name (g h) = h_Name h) by reflexivity;
  assert (Hgu : forall h, h_UsageCount (g h) = h_UsageCount h + 1) by reflexivity;
  pose proof (upd_keys name g Hgn hs) as Hk;
  pose proof (upd_total name g Hgu hs Hnd Hex) as Ht;
  pose proof (upd_filter name g Hgn hs) as Hf;
  pose proof (upd_found name g hs Hex) as Hfd;
  cbv beta in Hk, Ht, Hf, Hfd.

(** With the names unique up to case, [SaveItemHistory] keeps them unique,
    adds exactly 1 to the total usage count, leaves a row with the name that
    records the section and the time of the call, and changes no row of
    another name; [SaveItemHistoryTx] does the same except for the time. *)
Theorem SaveItemHistory_upsert (hs : list HistoryRow) (name : string) (sec now : Z) :
  NoDup (map history_key hs) ->
  (NoDup (map history_key (SaveItemHistory hs name sec now)) /\
   total_usage (SaveItemHistory hs name sec now) = total_usage hs + 1 /\
   (exists h, In h (SaveItemHistory hs name sec now) /\ history_key h = ToLower name /\
      h_LastSectionID h = sec /\ h_LastUsedAt h = now) /\
   List.filter (fun h => negb (same_name (h_Name h) name)) (SaveItemHistory hs name sec now) =
   List.filter (fun h => negb (same_name (h_Name h) name)) hs) /\
  (NoDup (map history_key (SaveItemHistoryTx hs name sec now)) /\
   total_usage (SaveItemHistoryTx hs name sec now) = total_usage hs + 1 /\
   (exists h, In h (SaveItemHistoryTx hs name sec now) /\ history_key h = ToLower name /\
      h_LastSectionID h = sec) /\
   List.filter (fun h => negb (same_name (h_Name h) name)) (SaveItemHistoryTx hs name sec now) =
   List.filter (fun h => negb (same_name (h_Name h) name)) hs).
Proof.
  intros Hnd. unfold SaveItemHistory, SaveItemHistoryTx.
  destruct (existsb (fun h => same_name (h_Name h) name) hs) eqn:Hex.
  - split.
    + history_upsert_case name hs Hnd Hex
        (fun h => mkHistory (h_ID h) (h_Name h) sec (h_UsageCount h + 1) now) Hk Ht Hf Hfd.
      rewrite Hk. split; [done|]. split; [exact Ht|]. split; [|exact Hf].
      destruct Hfd as (h & _ & E & Hin). eexists. split; [exact Hin|].
      cbn. split; [|done]. unfold same_name in E. by apply String.eqb_eq in E.
    + history_upsert_case name hs Hnd Hex
        (fun h => mkHistory (h_ID h) (h_Name h) sec (h_UsageCount h + 1) (h_LastUsedAt h))
        Hk Ht Hf Hfd.
      rewrite Hk. split; [done|]. split; [exact Ht|]. split; [|exact Hf].
      destruct Hfd as (h & _ & E & Hin). eexists. split; [exact Hin|].
      cbn. split; [|done]. unfold same_name in E. by apply String.eqb_eq in E.
  - split; (split; [apply (history_insert_keys hs name); done|]);
      (split; [rewrite total_usage_app; unfold total_usage; cbn; lia|]);
      (split; [|apply (history_insert_filter hs name); done]);
      (eexists; split; [apply in_or_app; right; left; reflexivity|]); cbn; done.
Qed.

Lemma SaveItemHistory_upsert_witness :
  (NoDup (map history_key (SaveItemHistory [mkHistory 1 "milk" 10 1 100; mkHistory 2 "Bread" 10 3 50] "BREAD" 20 300)) /\
   total_usage (SaveItemHistory [mkHistory 1 "milk" 10 1 100; mkHistory 2 "Bread" 10 3 50] "BREAD" 20 300) =
     total_usage [mkHistory 1 "milk" 10 1 100; mkHistory 2 "Bread" 10 3 50] + 1 /\
   (exists h, In h (SaveItemHistory [mkHistory 1 "milk" 10 1 100; mkHistory 2 "Bread" 10 3 50] "BREAD" 20 300) /\
      history_key h = ToLower "BREAD" /\ h_LastSectionID h = 20 /\ h_LastUsedAt h = 300) /\
   List.filter (fun h => negb (same_name (h_Name h) "BREAD"))
     (SaveItemHistory [mkHistory 1 "milk" 10 1 100; mkHistory 2 "Bread" 10 3 50] "BREAD" 20 300) =
   List.filter (fun h => negb (same_name (h_Name h) "BREAD"))
     [mkHistory 1 "milk" 10 1 100; mkHistory 2 "Bread" 10 3 50]) /\
  (NoDup (map history_key (SaveItemHistoryTx [mkHistory 1 "milk" 10 1 100; mkHistory 2 "Bread" 10 3 50] "BREAD" 20 300)) /\
   total_usage (SaveItemHistoryTx [mkHistory 1 "milk" 10 1 100; mkHistory 2 "Bread" 10 3 50] "BREAD" 20 300) =
     total_usage [mkHistory 1 "milk" 10 1 100; mkHistory 2 "Bread" 10 3 50] + 1 /\
   (exists h, In h (SaveItemHistoryTx [mkHistory 1 "milk" 10 1 100; mkHistory 2 "Bread" 10 3 50] "BREAD" 20 300) /\
      history_key h = ToLower "BREAD" /\ h_LastSectionID h = 20) /\
   List.filter (fun h => negb (same_name (h_Name h) "BREAD"))
     (SaveItemHistoryTx [mkHistory 1 "milk" 10 1 100; mkHistory 2 "Bread" 10 3 50] "BREAD" 20 300) =
   List.filter (fun h => negb (same_name (h_Name h) "BREAD"))
     [mkHistory 1 "milk" 10 1 100; mkHistory 2 "Bread" 10 3 50]).
Proof.
  apply SaveItemHistory_upsert. vm_compute.
  apply NoDup_cons. split; [|apply NoDup_singleton].
  rewrite list_elem_of_singleton. discriminate.
Defined.

(** ** Statistics *)

Lemma make_stats_range t c :
  0 <= c <= t ->
  0 <= CompletedItems (make_stats t c) <= TotalItems (make_stats t c) /\
  0 <= Percentage (make_stats t c) <= 100 /\
  (Percentage (make_stats t c) = 100 <->
     0 < TotalItems (make_stats t c) /\ CompletedItems (make_stats t c) = TotalItems (make_stats t c)).
Proof.
  intros Hc. unfold make_stats. cbn [CompletedItems TotalItems Percentage].
  destruct (Z.ltb_spec 0 t) as [Ht|Ht].
  - rewrite Z.quot_div_nonneg by lia.
    assert (Hle : (c * 100) / t <= 100) by (apply Z.div_le_upper_bound; nia).
    assert (H0 : 0 <= (c * 100) / t) by (apply Z.div_pos; lia).
    split; [lia|]. split; [lia|]. split.
    + intros H100. split; [lia|].
      destruct (Z.eq_dec c t) as [|Hne]; [done|].
      assert ((c * 100) / t < 100) by (apply Z.div_lt_upper_bound; nia). lia.
    + intros [_ ->]. rewrite Z.mul_comm, Z.div_mul by lia. reflexivity.
  - split; [lia|]. split; [lia|]. split; [discriminate|lia].
Qed.

Lemma filter_length_le {A} (p : A -> bool) (l : list A) :
  (length (List.filter p l) <= length l)%nat.
Proof.
  induction l as [|x l IH]; cbn [List.filter length]; [lia|]. destruct (p x); cbn; lia.
Qed.

Lemma make_stats_counts {A} (p : A -> bool) (l : list A) :
  0 <= Z.of_nat (length (List.filter p l)) <= Z.of_nat (length l).
Proof. pose proof (filter_length_le p l). lia. Qed.

(** Every [Stats] value of the [db] package has [0 <= completed <= total]
    and a percentage between 0 and 100, which is 100 exactly when there are
    items and all of them are completed: for [getGlobalStats],
    [GetSectionStats], [GetListStats] and [GetStats]. *)
Theorem Stats_percentage_range (ls : list DbList) (ss : list Section) (st : list Item)
    (sectionID listID : Z) :
  Forall (fun s => 0 <= CompletedItems s <= TotalItems s /\
                   0 <= Percentage s <= 100 /\
                   (Percentage s = 100 <-> 0 < TotalItems s /\ CompletedItems s = TotalItems s))
    [getGlobalStats st; GetSectionStats st sectionID; GetListStats ss st listID;
     GetStats ls ss st].
Proof.
  assert (Hg : forall st, 0 <= CompletedItems (getGlobalStats st) <= TotalItems (getGlobalStats st) /\
                   0 <= Percentage (getGlobalStats st) <= 100 /\
                   (Percentage (getGlobalStats st) = 100 <->
                      0 < TotalItems (getGlobalStats st) /\
                      CompletedItems (getGlobalStats st) = TotalItems (getGlobalStats st)))
    by (intros; apply make_stats_range, make_stats_counts).
  assert (Hl : forall listID,
                   0 <= CompletedItems (GetListStats ss st listID) <= TotalItems (GetListStats ss st listID) /\
                   0 <= Percentage (GetListStats ss st listID) <= 100 /\
                   (Percentage (GetListStats ss st listID) = 100 <->
                      0 < TotalItems (GetListStats ss st listID) /\
                      CompletedItems (GetListStats ss st listID) = TotalItems (GetListStats ss st listID)))
    by (intros; apply make_stats_range, make_stats_counts).
  apply List.Forall_forall. intros s Hs.
  destruct Hs as [<-|[<-|[<-|[<-|[]]]]].
  - apply Hg.
  - apply make_stats_range, make_stats_counts.
  - apply Hl.
  - unfold GetStats. destruct (GetActiveList ls); [apply Hl|apply Hg].
Qed.

(** ** Restarting a list *)

Lemma list_join_map (f : Item -> Item) ss st listID :
  (forall r, item_SectionID (f r) = item_SectionID r) ->
  list_join ss (map f st) listID = map (fun p => (f p.1, p.2)) (list_join ss st listID).
Proof.
  intros Hf. unfold list_join. induction st as [|r st IH]; [done|].
  cbn [map flat_map]. rewrite IH, map_app, map_map, Hf. f_equal.
Qed.

Lemma list_join_in_list ss st listID p :
  In p (list_join ss st listID) -> In p.1 st /\ in_list ss listID p.1 = true.
Proof.
  unfold list_join. intros (r & Hr & Hp)%in_flat_map.
  apply in_map_iff in Hp as (s & <- & Hs). apply filter_In in Hs as [Hs E].
  apply andb_true_iff in E as [E1 E2]. split; [done|].
  apply existsb_exists. exists s. split; [done|].
  apply andb_true_iff. split; [done|]. apply Z.eqb_eq in E1. cbn. rewrite E1.
  apply Z.eqb_refl.
Qed.

Lemma list_filter_none {A} (p : A -> bool) (l : list A) :
  (forall x, In x l -> p x = false) -> List.filter p l = [].
Proof.
  induction l as [|x l IH]; intros H; [done|]. cbn. rewrite H by (left; done).
  apply IH. intros y Hy. apply H. by right.
Qed.

(** [RestartList] succeeds and unchecks exactly the items of the list's
    sections: ids, sections and sort orders are kept, the items of other
    lists are unchanged, and afterwards [GetListStats] of the list counts the
    same items with none completed and 0 percent. *)
Theorem RestartList_unchecks (ss : list Section) (st : list Item) (listID : Z) :
  exists st', RestartList ss st listID = Ok st' /\
    map (fun r => (item_ID r, item_SectionID r, item_SortOrder r)) st' =
      map (fun r => (item_ID r, item_SectionID r, item_SortOrder r)) st /\
    List.filter (fun r => negb (in_list ss listID r)) st' =
      List.filter (fun r => negb (in_list ss listID r)) st /\
    TotalItems (GetListStats ss st' listID) = TotalItems (GetListStats ss st listID) /\
    CompletedItems (GetListStats ss st' listID) = 0 /\
    Percentage (GetListStats ss st' listID) = 0.
Proof.
  set (f := fun r => if in_list ss listID r then set_completed false r else r).
  assert (Hf : forall r, item_SectionID (f r) = item_SectionID r)
    by (intros r; unfold f; destruct (in_list ss listID r); reflexivity).
  assert (Hin : forall r, in_list ss listID (f r) = in_list ss listID r)
    by (intros r; unfold in_list; rewrite Hf; reflexivity).
  exists (map f st). split; [reflexivity|]. split.
  { rewrite map_map. apply map_ext. intros r. unfold f.
    destruct (in_list ss listID r); reflexivity. }
  split.
  { induction st as [|r st IH]; [done|]. cbn [map List.filter]. rewrite Hin, IH.
    destruct (in_list ss listID r) eqn:E; [done|]. cbn. f_equal. unfold f. by rewrite E. }
  assert (Hc : List.filter (fun p => item_Completed p.1) (list_join ss (map f st) listID) = []).
  { apply list_filter_none. intros p Hp.
    rewrite list_join_map in Hp by exact Hf. apply in_map_iff in Hp as (q & <- & Hq).
    apply list_join_in_list in Hq as [_ Hq]. cbn. unfold f. by rewrite Hq. }
  unfold GetListStats, make_stats. cbn [TotalItems CompletedItems Percentage].
  rewrite Hc. cbn [length]. rewrite list_join_map by exact Hf. rewrite length_map.
  split; [done|]. split; [done|].
  destruct (0 <? _); reflexivity.
Qed.

(** ** Activating a list and clearing its completed items *)

(** After [SetActiveList ls X now], [GetActiveList] finds the list [X] (with
    the new [updated_at]) when it exists, and finds no active list at all
    when it does not. *)
Theorem SetActiveList_GetActiveList (ls : list DbList) (X now : Z) :
  exists ls', SetActiveList ls X now = Ok ls' /\
    (In X (map list_ID ls) ->
       exists al, GetActiveList ls' = Some al /\ list_ID al = X /\
                  list_IsActive al = true /\ list_UpdatedAt al = now) /\
    (~ In X (map list_ID ls) -> GetActiveList ls' = None).
Proof.
  eexists. split; [reflexivity|]. unfold GetActiveList. rewrite map_map.
  cbn [list_ID list_Name list_SortOrder list_IsActive list_UpdatedAt].
  induction ls as [|l ls [IH1 IH2]]; cbn [map List.find In].
  { split; [intros []|done]. }
  destruct (Z.eqb_spec (list_ID l) X) as [E|E]; cbn [list_IsActive].
  - split; [|intros Hn; exfalso; apply Hn; left; exact E].
    intros _. eexists. split; [reflexivity|]. cbn. done.
  - split.
    + intros [Hx|Hx]; [contradiction|]. exact (IH1 Hx).
    + intros Hn. apply IH2. intros Hx. apply Hn. by right.
Qed.

Lemma filter_length_split {A} (p : A -> bool) (l : list A) :
  (length (List.filter p l) + length (List.filter (fun x => negb (p x)) l) = length l)%nat.
Proof.
  induction l as [|x l IH]; [done|]. cbn [List.filter length].
  destruct (p x); cbn [negb length]; lia.
Qed.

Lemma list_filter_all {A} (p : A -> bool) (l : list A) :
  (forall x, In x l -> p x = true) -> List.filter p l = l.
Proof.
  induction l as [|x l IH]; intros H; [done|]. cbn. rewrite H by (left; done).
  f_equal. apply IH. intros y Hy. apply H. by right.
Qed.

Lemma in_list_false_join ss listID r :
  in_list ss listID r = false ->
  List.filter (fun s => (item_SectionID r =? section_ID s) && (section_ListID s =? listID)) ss = [].
Proof.
  intros H. apply list_filter_none. intros s Hs.
  apply not_true_iff_false. intros E. apply andb_true_iff in E as [E1 E2].
  assert (Ht : in_list ss listID r = true).
  { apply existsb_exists. exists s. split; [done|]. apply andb_true_iff.
    split; [done|]. apply Z.eqb_eq in E1. rewrite E1. apply Z.eqb_refl. }
  congruence.
Qed.

Lemma list_join_delete_completed ss st listID :
  list_join ss (List.filter (fun r => negb (item_Completed r && in_list ss listID r)) st) listID =
  List.filter (fun p => negb (item_Completed p.1)) (list_join ss st listID).
Proof.
  unfold list_join. induction st as [|r st IH]; [done|].
  cbn [List.filter flat_map]. rewrite List.filter_app, <-IH.
  set (ps := map (fun s => (r, s))
               (List.filter (fun s => (item_SectionID r =? section_ID s) &&
                                      (section_ListID s =? listID)) ss)).
  assert (Hps : forall p, In p ps -> p.1 = r)
    by (intros p Hp; apply in_map_iff in Hp as (s & <- & _); reflexivity).
  destruct (item_Completed r) eqn:C; destruct (in_list ss listID r) eqn:L; cbn [andb negb].
  - rewrite (list_filter_none _ ps); [done|]. intros p Hp. rewrite (Hps p Hp). by rewrite C.
  - cbn [flat_map]. unfold ps. rewrite (in_list_false_join ss listID r L). done.
  - cbn [flat_map]. f_equal. symmetry. apply list_filter_all.
    intros p Hp. rewrite (Hps p Hp). by rewrite C.
  - cbn [flat_map]. f_equal. symmetry. apply list_filter_all.
    intros p Hp. rewrite (Hps p Hp). by rewrite C.
Qed.

(** [DeleteCompletedItems] fails without an active list. Otherwise it
    removes exactly the completed items of the active list's sections and
    returns their number; afterwards [GetListStats] of that list counts no
    completed item and as many items as it counted not completed before. *)
Theorem DeleteCompletedItems_effect (ls : list DbList) (ss : list Section) (st : list Item) :
  (GetActiveList ls = None -> DeleteCompletedItems ls ss st = Err ErrNoRows) /\
  (forall al, GetActiveList ls = Some al ->
     DeleteCompletedItems ls ss st =
       Ok (Z.of_nat (length (List.filter (fun r => item_Completed r &&
                                                   in_list ss (list_ID al) r) st)),
           List.filter (fun r => negb (item_Completed r && in_list ss (list_ID al) r)) st) /\
     CompletedItems (GetListStats ss
       (List.filter (fun r => negb (item_Completed r && in_list ss (list_ID al) r)) st)
       (list_ID al)) = 0 /\
     TotalItems (GetListStats ss
       (List.filter (fun r => negb (item_Completed r && in_list ss (list_ID al) r)) st)
       (list_ID al)) =
     TotalItems (GetListStats ss st (list_ID al)) -
     CompletedItems (GetListStats ss st (list_ID al))).
Proof.
  unfold DeleteCompletedItems. split; [intros ->; reflexivity|].
  intros al ->. split.
  { do 2 f_equal. pose proof (filter_length_split
      (fun r => item_Completed r && in_list ss (list_ID al) r) st). lia. }
  unfold GetListStats, make_stats. cbn [TotalItems CompletedItems].
  rewrite list_join_delete_completed. split.
  - rewrite (list_filter_none _ (List.filter _ _)); [done|].
    intros p Hp. apply filter_In in Hp as [_ Hp]. by apply negb_true_iff in Hp.
  - pose proof (filter_length_split (fun p : Item * Section => item_Completed p.1)
                  (list_join ss st (list_ID al))). lia.
Qed.

(** ** Batch deletes *)

(** [DeleteItemHistory] reports a missing id and otherwise removes every row
    with the id. *)
Theorem DeleteItemHistory_spec (hs : list HistoryRow) (id : Z) :
  (~ In id (map h_ID hs) -> DeleteItemHistory hs id = Err ErrHistoryNotFound) /\
  (In id (map h_ID hs) ->
     DeleteItemHistory hs id = Ok (List.filter (fun h => negb (h_ID h =? id)) hs)).
Proof.
  unfold DeleteItemHistory. split.
  - intros Hn. rewrite list_filter_all, Nat.eqb_refl; [done|].
    intros h Hh. apply negb_true_iff, Z.eqb_neq. intros E. apply Hn.
    apply in_map_iff. by exists h.
  - intros Hin. apply in_map_iff in Hin as (h & E & Hh).
    pose proof (filter_length_split (fun h => h_ID h =? id) hs) as Hs.
    assert (Hpos : (0 < length (List.filter (fun h => (h_ID h =? id)%Z) hs))%nat).
    { destruct (List.filter (fun h => h_ID h =? id) hs) eqn:F; [|cbn [length]; lia].
      assert (In h (List.filter (fun h => h_ID h =? id) hs))
        by (apply filter_In; split; [done|]; by apply Z.eqb_eq).
      rewrite F in *. contradiction. }
    destruct (Nat.eqb_spec (length (List.filter (fun h => negb (h_ID h =? id)) hs))
                (length hs)); [lia|done].
Qed.

(** [DeleteItemHistoryBatch ids] removes exactly the rows whose id is listed
    and returns their number (0 and no change for an empty list). *)
Theorem DeleteItemHistoryBatch_spec (hs : list HistoryRow) (ids : list Z) :
  DeleteItemHistoryBatch hs ids =
    Ok (Z.of_nat (length (List.filter (fun h => existsb (Z.eqb (h_ID h)) ids) hs)),
        List.filter (fun h => negb (existsb (Z.eqb (h_ID h)) ids)) hs).
Proof.
  unfold DeleteItemHistoryBatch. destruct ids as [|i ids].
  - cbn [existsb]. rewrite (list_filter_none (fun _ => false) hs),
      (list_filter_all (fun _ => negb false) hs); done.
  - do 2 f_equal. pose proof (filter_length_split
      (fun h => existsb (Z.eqb (h_ID h)) (i :: ids)) hs). lia.
Qed.

(** [DeleteSections ids] removes exactly the sections whose id is listed,
    keeping the order of the others. *)
Theorem DeleteSections_spec (ss : list Section) (ids : list Z) :
  DeleteSections ss ids =
    Ok (List.filter (fun s => negb (existsb (Z.eqb (section_ID s)) ids)) ss).
Proof.
  unfold DeleteSections. f_equal. revert ss.
  induction ids as [|i ids IH]; intros ss; cbn [fold_left existsb].
  - symmetry. by apply list_filter_all.
  - rewrite IH. clear IH. induction ss as [|s ss IHs]; [done|].
    cbn [List.filter]. destruct (section_ID s =? i); cbn [negb orb List.filter].
    + exact IHs.
    + destruct (existsb (Z.eqb (section_ID s)) ids); cbn [negb]; [exact IHs|].
      by rewrite IHs.
Qed.

(** ** The handler helper [contains] *)

Lemma prefix_substring sub s :
  String.prefix sub s = String.eqb (substring 0 (String.length sub) s) sub.
Proof.
  destruct (String.prefix sub s) eqn:P; symmetry.
  - apply String.eqb_eq. by apply prefix_correct.
  - apply not_true_iff_false. intros E. apply String.eqb_eq, prefix_correct in E.
    congruence.
Qed.

Lemma contains_loop_shift c s sub i fuel :
  contains_loop (String c s) sub (S i) fuel = contains_loop s sub i fuel.
Proof.
  revert i. induction fuel as [|fuel IH]; intros i; [done|]. cbn [contains_loop].
  change (substring (S i) (String.length sub) (String c s))
    with (substring i (String.length sub) s).
  by rewrite IH.
Qed.

Lemma prefix_length sub s : String.prefix sub s = true -> (String.length sub <= String.length s)%nat.
Proof.
  revert s. induction sub as [|c sub IH]; intros s H; cbn; [lia|].
  destruct s as [|d s]; cbn in H; [discriminate|].
  destruct (ascii_dec c d); [|discriminate]. specialize (IH s H). cbn. lia.
Qed.

Lemma Contains_length s sub : Contains s sub = true -> (String.length sub <= String.length s)%nat.
Proof.
  induction s as [|c s IH]; cbn [Contains].
  - rewrite orb_false_r. apply prefix_length.
  - intros [H|H]%orb_true_iff; [by apply prefix_length|]. specialize (IH H). cbn. lia.
Qed.

Lemma contains_Contains s sub : contains s sub = Contains s sub.
Proof.
  unfold contains. induction s as [|c s IH].
  - cbn [String.length Contains]. rewrite orb_false_r, prefix_substring.
    destruct sub as [|d sub]; [reflexivity|].
    cbn [String.length]. replace (Z.to_nat _) with 0%nat by lia. cbn.
    destruct (ascii_dec d d); reflexivity.
  - cbn [String.length Contains].
    destruct (Z.to_nat (Z.of_nat (S (String.length s)) - Z.of_nat (String.length sub) + 1))
      as [|F] eqn:EF.
    + cbn [contains_loop]. symmetry. apply orb_false_iff. split.
      * apply not_true_iff_false. intros H. apply prefix_length in H. cbn in H. lia.
      * apply not_true_iff_false. intros H. apply Contains_length in H. lia.
    + cbn [contains_loop]. rewrite <-prefix_substring.
      rewrite contains_loop_shift, <-IH.
      replace (Z.to_nat (Z.of_nat (String.length s) - Z.of_nat (String.length sub) + 1))
        with F by lia.
      by destruct (String.prefix sub (String c s)).
Qed.

(** The helper [contains] of the handlers, a loop over the byte offsets
    [0 .. len(s) - len(substr)], agrees with [strings.Contains] for every
    pair of strings (the empty substring included). *)
Theorem contains_spec (s substr : string) : contains s substr = Contains s substr.
Proof. apply contains_Contains. Qed.

Lemma prefix_app p q t : String.prefix (p ++ q) t = true -> String.prefix p t = true.
Proof.
  revert t. induction p as [|c p IH]; intros t H; [by destruct t|].
  destruct t as [|d t]; cbn in H |- *; [discriminate|].
  destruct (ascii_dec c d); [|discriminate]. by apply IH.
Qed.

Lemma Contains_app s p q : Contains s (p ++ q) = true -> Contains s p = true.
Proof.
  induction s as [|c s IH]; cbn [Contains].
  - rewrite !orb_false_r. apply prefix_app.
  - intros [H|H]%orb_true_iff; apply orb_true_iff; [left; by apply prefix_app in H|].
    right. by apply IH.
Qed.

(** The refresh branch of the [RestartList] handler is dead: a current URL
    that contains "/lists/" also contains "/lists", which the first branch
    already answers, so the handler never asks for a page refresh. *)
Theorem RestartList_response_no_refresh (hxTarget hxCurrentURL idParam : string) :
  RestartList_response hxTarget hxCurrentURL idParam <> RefreshPage.
Proof.
  unfold RestartList_response.
  destruct (_ || contains hxCurrentURL "/lists"); [discriminate|].
  destruct (contains hxCurrentURL "/lists") eqn:E; cbn [negb andb]; [discriminate|].
  destruct (contains hxCurrentURL "/lists/") eqn:E'; [|discriminate].
  rewrite !contains_Contains in *.
  change "/lists/"%string with ("/lists" ++ "/")%string in E'.
  apply Contains_app in E'. congruence.
Qed.
